(** * The MaxScale housekeeper (server/core/housekeeper.c)

    A shallow embedding of the periodic-task scheduler: the task list,
    [hktask_add], [hktask_oneshot], [hktask_remove], the driver thread
    [hkthread] with its restart-from-head scan, [hkshutdown] and
    [hkshow_tasks].

    Conventions of the model.
    - The singly linked list [tasks] is a Rocq list; [next] is the tail.
    - [time_t] and [long] values are integers in [Z].  The wall clock never
      comes near the 64-bit limits, so the sums [time(0) + frequency] and
      [hkheartbeat++] are exact.  The conversion of a [time_t] to the [int]
      that [hktask_add] and [hktask_oneshot] return is written out ([to_int]).
    - The wall clock is kept in milliseconds; [time(0)] is its floor in
      seconds and [thread_millisleep] advances it.
    - A task function is a function pointer; what the pointed-to code does is
      given by an environment [code] which maps the number of the call (the
      calls of task functions by the driver are counted, a function may do
      something else every time), the pointer and its data argument to a
      behaviour [cmd]: the calls the function makes back into the
      housekeeper, each continued with the value the call returned, and the
      time it spends.
    - The model is sequential: the driver thread and the task functions it
      calls.  Locking is visible as events where a property speaks of it. *)

From Stdlib Require Import ZArith List String Bool Lia Arith.
Import ListNotations.
Local Open Scope string_scope.
Local Open Scope list_scope.
Local Open Scope Z_scope.

(** ** Data model *)

(** Modelled from the spec: the enumeration is declared in housekeeper.h,
    which is not among the sources.  These are the two kinds of task of the
    spec, Repeated and OneShot, under the names housekeeper.c uses. *)
Inductive HKTASK_TYPE : Type :=
| HK_REPEATED
| HK_ONESHOT.

(** A function pointer, as an address. *)
Definition fnptr := Z.

(** Modelled from the spec: the struct is declared in housekeeper.h, which is
    not among the sources.  The fields are those of the Task of the spec
    (name, kind, interval, nextDue, and the work as a callable with its
    data), under the names by which housekeeper.c reads and writes them;
    [next] is the tail of the list. *)
Record HKTASK : Type := mkTask {
  name : string;          (* char *name *)
  task : fnptr;           (* void (*task)(void *) *)
  data : Z;               (* void *data *)
  frequency : Z;          (* int frequency *)
  type : HKTASK_TYPE;
  nextdue : Z             (* time_t nextdue *)
}.

Definition HKTASK_TYPE_eqb (a b : HKTASK_TYPE) : bool :=
  match a, b with
  | HK_REPEATED, HK_REPEATED => true
  | HK_ONESHOT, HK_ONESHOT => true
  | _, _ => false
  end.

(** The housekeeper's globals, and the wall clock it reads. *)
Record hk : Type := mkHk {
  tasks : list HKTASK;    (* static HKTASK *tasks = NULL *)
  do_shutdown : bool;     (* static int do_shutdown = 0 *)
  hkheartbeat : Z;        (* long hkheartbeat = 0 *)
  clock_ms : Z            (* wall clock, milliseconds *)
}.

Definition hk_start (clock : Z) : hk :=
  {| tasks := []; do_shutdown := false; hkheartbeat := 0; clock_ms := clock |}.

Definition set_tasks (l : list HKTASK) (st : hk) : hk :=
  {| tasks := l; do_shutdown := do_shutdown st;
     hkheartbeat := hkheartbeat st; clock_ms := clock_ms st |}.

(** [time(0)]: the wall clock in whole seconds. *)
Definition time (st : hk) : Z := clock_ms st / 1000.

(** Modelled from the spec: [thread_millisleep] is defined in thread.c, which
    is not among the sources.  It is the sleep primitive of the spec; here
    the clock moves on by the time asked for. *)
Definition thread_millisleep (ms : Z) (st : hk) : hk :=
  {| tasks := tasks st; do_shutdown := do_shutdown st;
     hkheartbeat := hkheartbeat st; clock_ms := clock_ms st + ms |}.

(** Conversion of a [time_t] to the 32-bit [int] of a return value. *)
Definition to_int (z : Z) : Z :=
  let m := z mod 4294967296 in
  if m <? 2147483648 then m else m - 4294967296.

Definition int_range (z : Z) : Prop := -2147483648 <= z <= 2147483647.

(** What [malloc] and [strdup] answer to one registration call. *)
Inductive heap : Type :=
| MallocFails
| StrdupFails
| HeapOk.

(** ** hktask_add *)

(** The walk of [hktask_add] over the list with the lock held:
    [while (ptr && ptr->next)] compares every entry but the last, the
    [if (ptr)] after it compares the last one and links the new task behind
    it.  [None] is the early [return 0] on an equal name. *)
Fixpoint add_walk (nm : string) (t : HKTASK) (l : list HKTASK)
  : option (list HKTASK) :=
  match l with
  | [] => Some [t]
  | p :: rest =>
      match rest with
      | [] => if String.eqb (name p) nm then None else Some [p; t]
      | _ :: _ =>
          if String.eqb (name p) nm then None
          else match add_walk nm t rest with
               | None => None
               | Some r => Some (p :: r)
               end
      end
  end.

Definition hktask_add (nm : string) (taskfn : fnptr) (dt : Z) (freq : Z)
  (h : heap) (st : hk) : Z * hk :=
  match h with
  | MallocFails => (0, st)
  | StrdupFails => (0, st)
  | HeapOk =>
      let t := {| name := nm; task := taskfn; data := dt; frequency := freq;
                  type := HK_REPEATED; nextdue := time st + freq |} in
      match add_walk nm t (tasks st) with
      | None => (0, st)
      | Some l => (to_int (nextdue t), set_tasks l st)
      end
  end.

(** ** hktask_oneshot *)

(** The walk of [hktask_oneshot]: to the last entry, comparing nothing. *)
Fixpoint oneshot_walk (t : HKTASK) (l : list HKTASK) : list HKTASK :=
  match l with
  | [] => [t]
  | p :: rest =>
      match rest with
      | [] => [p; t]
      | _ :: _ => p :: oneshot_walk t rest
      end
  end.

Definition hktask_oneshot (nm : string) (taskfn : fnptr) (dt : Z) (when : Z)
  (h : heap) (st : hk) : Z * hk :=
  match h with
  | MallocFails => (0, st)
  | StrdupFails => (0, st)
  | HeapOk =>
      let t := {| name := nm; task := taskfn; data := dt; frequency := 0;
                  type := HK_ONESHOT; nextdue := time st + when |} in
      (to_int (nextdue t), set_tasks (oneshot_walk t (tasks st)) st)
  end.

(** ** hktask_remove *)

(** The walk of [hktask_remove]: stop at the first entry whose name compares
    equal and unlink it; [None] when the end of the list is reached. *)
Fixpoint remove_walk (nm : string) (l : list HKTASK) : option (list HKTASK) :=
  match l with
  | [] => None
  | p :: rest =>
      if String.eqb (name p) nm then Some rest
      else match remove_walk nm rest with
           | None => None
           | Some r => Some (p :: r)
           end
  end.

Definition hktask_remove (nm : string) (st : hk) : Z * hk :=
  match remove_walk nm (tasks st) with
  | Some l => (1, set_tasks l st)
  | None => (0, st)
  end.

(** ** hkshutdown *)

Definition hkshutdown (st : hk) : hk :=
  {| tasks := tasks st; do_shutdown := true;
     hkheartbeat := hkheartbeat st; clock_ms := clock_ms st |}.

(** ** Task functions *)

(** The behaviour of one call of a task function, as far as the housekeeper
    can tell: the calls it makes into the housekeeper, in order, each
    continued with the [int] the call returned, and the wall-clock time it
    uses up.  The answer of the heap to a registration is part of the
    behaviour. *)
Inductive cmd : Type :=
| Ret : cmd
| Add : string -> fnptr -> Z -> Z -> heap -> (Z -> cmd) -> cmd
| Oneshot : string -> fnptr -> Z -> Z -> heap -> (Z -> cmd) -> cmd
| Remove : string -> (Z -> cmd) -> cmd
| Shutdown : cmd -> cmd
| Spend : nat -> cmd -> cmd.

Fixpoint run_cmd (c : cmd) (st : hk) : hk :=
  match c with
  | Ret => st
  | Add nm fn dt freq h k =>
      let (r, st') := hktask_add nm fn dt freq h st in run_cmd (k r) st'
  | Oneshot nm fn dt when h k =>
      let (r, st') := hktask_oneshot nm fn dt when h st in run_cmd (k r) st'
  | Remove nm k =>
      let (r, st') := hktask_remove nm st in run_cmd (k r) st'
  | Shutdown k => run_cmd k (hkshutdown st)
  | Spend ms k => run_cmd k (thread_millisleep (Z.of_nat ms) st)
  end.

(** ** hkthread *)

(** One execution of a task by the driver. *)
Record run : Type := mkRun {
  call : nat;            (* the number of the call *)
  ran : HKTASK;          (* the entry as the scan found it *)
  wrote : Z;             (* the nextdue written into it before the call *)
  at_ms : Z;             (* the wall clock when the task function was called *)
  relocked : list HKTASK (* the list when the driver takes the lock again *)
}.

Definition due (now : Z) (p : HKTASK) : bool := nextdue p <=? now.

Definition set_nextdue (d : Z) (p : HKTASK) : HKTASK :=
  {| name := name p; task := task p; data := data p;
     frequency := frequency p; type := type p; nextdue := d |}.

(** The walk of the scan from the head: [ptr = ptr->next] over the entries
    that are not due, and [ptr->nextdue = now + ptr->frequency] in the first
    one that is.  The result is the entry as found and the list as the write
    leaves it; [None] when the end of the list is reached. *)
Fixpoint scan_walk (now : Z) (l : list HKTASK)
  : option (HKTASK * list HKTASK) :=
  match l with
  | [] => None
  | p :: rest =>
      if due now p then Some (p, set_nextdue (now + frequency p) p :: rest)
      else match scan_walk now rest with
           | None => None
           | Some (e, r) => Some (e, p :: r)
           end
  end.

(** [hkheartbeat++] *)
Definition beat (st : hk) : hk :=
  {| tasks := tasks st; do_shutdown := do_shutdown st;
     hkheartbeat := hkheartbeat st + 1; clock_ms := clock_ms st |}.

(** [for (i = 0; i < 10; i++)] with [i] turns left: [inl] is the [return]
    on [do_shutdown], [inr] the state after the last tick. *)
Fixpoint ticks (i : nat) (st : hk) : hk + hk :=
  match i with
  | O => inr st
  | S j =>
      if do_shutdown st then inl st
      else ticks j (beat (thread_millisleep 100 st))
  end.

(** How far the driver got, with the executions it made and the state it
    reached. *)
Inductive progress : Type :=
| Returned (tr : list run) (st : hk)   (* [return] on [do_shutdown] *)
| Spinning (tr : list run) (st : hk)   (* in a scan, the budget of executions used up *)
| Running (tr : list run) (st : hk).   (* the scan or turn is over, the thread goes on *)

Definition trace (r : progress) : list run :=
  match r with
  | Returned tr _ => tr
  | Spinning tr _ => tr
  | Running tr _ => tr
  end.

Definition state_of (r : progress) : hk :=
  match r with
  | Returned _ s => s
  | Spinning _ s => s
  | Running _ s => s
  end.

Definition after (tr : list run) (r : progress) : progress :=
  match r with
  | Returned tr' s => Returned (tr ++ tr') s
  | Spinning tr' s => Spinning (tr ++ tr') s
  | Running tr' s => Running (tr ++ tr') s
  end.

Section Driver.

(** What the code behind a function pointer does with its argument when it
    is called; the first argument is the number of the call. *)
Variable code : nat -> fnptr -> Z -> cmd.

(** The body of [if (ptr->nextdue <= now)]: the write, the call without
    the lock, and [hktask_remove(name)] on the copied name of a one-shot
    task.  [k] task functions have been called before. *)
Definition scan_step (now : Z) (k : nat) (st : hk) : option (run * hk) :=
  match scan_walk now (tasks st) with
  | None => None
  | Some (e, l) =>
      let st1 := set_tasks l st in
      let st2 := run_cmd (code k (task e) (data e)) st1 in
      let st3 := match type e with
                 | HK_ONESHOT => snd (hktask_remove (name e) st2)
                 | HK_REPEATED => st2
                 end in
      Some ({| call := k; ran := e; wrote := now + frequency e;
               at_ms := clock_ms st1; relocked := tasks st3 |}, st3)
  end.

(** The [while (ptr)] loop: after every executed task [ptr = tasks], and the
    loop ends with the walk that reaches the end of the list.  [fuel] is a
    budget of executions: [Running] is the loop left, [Spinning] a due
    entry found with the budget used up. *)
Fixpoint hkscan (fuel : nat) (now : Z) (k : nat) (st : hk) : progress :=
  match scan_step now k st with
  | None => Running [] st
  | Some (r, st') =>
      match fuel with
      | O => Spinning [] st
      | S f => after [r] (hkscan f now (S k) st')
      end
  end.

(** One turn of [for (;;)]: ten ticks, [now = time(0)], the scan. *)
Definition hkcycle (fuel : nat) (k : nat) (st : hk) : progress :=
  match ticks 10 st with
  | inl st' => Returned [] st'
  | inr st1 => hkscan fuel (time st1) k st1
  end.

(** [turns] turns of [for (;;)]. *)
Fixpoint hkthread (turns fuel : nat) (k : nat) (st : hk) : progress :=
  match turns with
  | O => Running [] st
  | S n =>
      match hkcycle fuel k st with
      | Running tr st' =>
          after tr (hkthread n fuel (k + List.length tr) st')
      | stopped => stopped
      end
  end.

End Driver.

(** ** hkshow_tasks *)

(** What [hkshow_tasks] does to the lock and to the DCB, in order. *)
Inductive show_event : Type :=
| Acquire                                   (* spinlock_acquire(&tasklock) *)
| Release                                   (* spinlock_release(&tasklock) *)
| Printf_header                             (* "%-25s | Type ...", "Name" *)
| Printf_rule                               (* "-----+-----..." *)
| Printf_row (nm label : string) (freq due : Z).

Definition type_label (t : HKTASK_TYPE) : string :=
  match t with
  | HK_REPEATED => "Repeated"
  | HK_ONESHOT => "One-Shot"
  end.

(** [while (ptr) { ... dcb_printf(...); ptr = ptr->next; }] *)
Fixpoint show_walk (l : list HKTASK) : list show_event :=
  match l with
  | [] => []
  | p :: rest =>
      Printf_row (name p) (type_label (type p)) (frequency p) (nextdue p)
      :: show_walk rest
  end.

Definition hkshow_tasks (st : hk) : list show_event :=
  [Printf_header; Printf_rule; Acquire] ++ show_walk (tasks st) ++ [Release].

Definition is_printf (e : show_event) : bool :=
  match e with
  | Acquire => false
  | Release => false
  | _ => true
  end.

(** The writes to the DCB that happen while the lock is held; [held] is the
    state of the lock before the first event. *)
Fixpoint writes_under_lock (held : bool) (evs : list show_event)
  : list show_event :=
  match evs with
  | [] => []
  | Acquire :: rest => writes_under_lock true rest
  | Release :: rest => writes_under_lock false rest
  | e :: rest =>
      if held then e :: writes_under_lock held rest
      else writes_under_lock held rest
  end.

(** Whether the lock is held after the events; [held] is the state of the
    lock before the first one. *)
Fixpoint lock_after (held : bool) (evs : list show_event) : bool :=
  match evs with
  | [] => held
  | Acquire :: rest => lock_after true rest
  | Release :: rest => lock_after false rest
  | _ :: rest => lock_after held rest
  end.

(** ** Vocabulary of the properties *)

Definition named (nm : string) (p : HKTASK) : bool := String.eqb (name p) nm.

(** [strcmp(ptr->name, name) == 0] for some entry of the list. *)
Definition has_name (nm : string) (l : list HKTASK) : bool :=
  existsb (named nm) l.

Definition count_name (nm : string) (l : list HKTASK) : nat :=
  List.length (filter (named nm) l).

Definition is_repeated (p : HKTASK) : bool :=
  HKTASK_TYPE_eqb (type p) HK_REPEATED.

Definition is_oneshot (p : HKTASK) : bool :=
  HKTASK_TYPE_eqb (type p) HK_ONESHOT.

(** The row [hkshow_tasks] prints for an entry. *)
Definition row (p : HKTASK) : show_event :=
  Printf_row (name p) (type_label (type p)) (frequency p) (nextdue p).

(** The entries a registration call makes. *)
Definition repeated_task (nm : string) (fn : fnptr) (dt freq : Z) (st : hk)
  : HKTASK :=
  {| name := nm; task := fn; data := dt; frequency := freq;
     type := HK_REPEATED; nextdue := time st + freq |}.

Definition oneshot_task (nm : string) (fn : fnptr) (dt when : Z) (st : hk)
  : HKTASK :=
  {| name := nm; task := fn; data := dt; frequency := 0;
     type := HK_ONESHOT; nextdue := time st + when |}.

(** A task function that registers nothing under the name [nm], whatever
    its calls return. *)
Fixpoint never_inserts (nm : string) (c : cmd) : Prop :=
  match c with
  | Ret => True
  | Add n _ _ _ _ k => n <> nm /\ forall r, never_inserts nm (k r)
  | Oneshot n _ _ _ _ k => n <> nm /\ forall r, never_inserts nm (k r)
  | Remove _ k => forall r, never_inserts nm (k r)
  | Shutdown k => never_inserts nm k
  | Spend _ k => never_inserts nm k
  end.

(** A task function that never calls [hktask_remove] on the name [nm]. *)
Fixpoint never_removes (nm : string) (c : cmd) : Prop :=
  match c with
  | Ret => True
  | Add _ _ _ _ _ k => forall r, never_removes nm (k r)
  | Oneshot _ _ _ _ _ k => forall r, never_removes nm (k r)
  | Remove n k => n <> nm /\ forall r, never_removes nm (k r)
  | Shutdown k => never_removes nm k
  | Spend _ k => never_removes nm k
  end.

(** A task function whose registrations all ask for a positive interval or
    delay. *)
Fixpoint inserts_ahead (c : cmd) : Prop :=
  match c with
  | Ret => True
  | Add _ _ _ freq _ k => 0 < freq /\ forall r, inserts_ahead (k r)
  | Oneshot _ _ _ when _ k => 0 < when /\ forall r, inserts_ahead (k r)
  | Remove _ k => forall r, inserts_ahead (k r)
  | Shutdown k => inserts_ahead k
  | Spend _ k => inserts_ahead k
  end.

(** The due one-shot entries of a list that carry the name [nm]. *)
Definition due_oneshot (now : Z) (nm : string) (p : HKTASK) : bool :=
  due now p && is_oneshot p && named nm p.

(** A bound on the executions a scan has ahead: one for every due repeated
    entry, and for every due one-shot entry the number of entries of its name
    up to and including itself, each of which a [hktask_remove] of that name
    may take in its place.  The sum is taken pair by pair from the head. *)
Fixpoint pending (now : Z) (l : list HKTASK) : nat :=
  match l with
  | [] => O
  | p :: rest =>
      ((if due now p && is_repeated p then 1 else 0)
       + List.length (filter (due_oneshot now (name p)) (p :: rest))
       + pending now rest)%nat
  end.

(** The names under which the runs of a trace were made. *)
Definition runs_named (nm : string) (tr : list run) : list run :=
  filter (fun r => named nm (ran r)) tr.

(** The number of due one-shot entries of the name [nm]. *)
Definition due_oneshots (now : Z) (nm : string) (l : list HKTASK) : nat :=
  List.length (filter (due_oneshot now nm) l).

(** A list in which every repeated entry that is due has a positive
    interval. *)
Definition calm (now : Z) (l : list HKTASK) : Prop :=
  Forall (fun p => due now p = true -> is_repeated p = true ->
                   0 < frequency p) l.

(** What the calls of a task function do to the bound [pending]: no name
    gains a due one-shot entry, and the bound drops at least as much as the
    number of due one-shot entries of any one name does. *)
Definition settles (now : Z) (l l' : list HKTASK) : Prop :=
  forall m : string,
    (due_oneshots now m l' <= due_oneshots now m l)%nat /\
    (pending now l' + due_oneshots now m l
     <= pending now l + due_oneshots now m l')%nat.

(** The function a run called. *)
Definition code_of (code : nat -> fnptr -> Z -> cmd) (r : run) : cmd :=
  code (call r) (task (ran r)) (data (ran r)).

(** A run that leaves the entries of the name [nm] in the list: its
    function does not call [hktask_remove] on the name, and it is not the
    run of a one-shot task of that name. *)
Definition keeps (code : nat -> fnptr -> Z -> cmd) (nm : string) (r : run)
  : Prop :=
  never_removes nm (code_of code r) /\
  (type (ran r) = HK_ONESHOT -> name (ran r) <> nm).


(** The state a [for] loop of ticks ends in, whichever way it ends. *)
Definition ticked (r : hk + hk) : hk :=
  match r with
  | inl s => s
  | inr s => s
  end.

(** ** Vocabulary of the further properties *)

(** A task function that makes no call on the task list: it registers
    nothing and removes nothing. *)
Fixpoint quiet (c : cmd) : Prop :=
  match c with
  | Ret => True
  | Add _ _ _ _ _ _ => False
  | Oneshot _ _ _ _ _ _ => False
  | Remove _ _ => False
  | Shutdown k => quiet k
  | Spend _ k => quiet k
  end.

(** A task function that never calls [hktask_oneshot]. *)
Fixpoint never_oneshot (c : cmd) : Prop :=
  match c with
  | Ret => True
  | Add _ _ _ _ _ k => forall r, never_oneshot (k r)
  | Oneshot _ _ _ _ _ _ => False
  | Remove _ k => forall r, never_oneshot (k r)
  | Shutdown k => never_oneshot k
  | Spend _ k => never_oneshot k
  end.

(** What one scan makes of a list when the task functions leave the list
    alone: a due one-shot entry is gone, a due repeated entry has [now] plus
    its interval as its nextdue, the others are as they were. *)
Fixpoint swept (now : Z) (l : list HKTASK) : list HKTASK :=
  match l with
  | [] => []
  | p :: rest =>
      if due now p then
        match type p with
        | HK_ONESHOT => swept now rest
        | HK_REPEATED => set_nextdue (now + frequency p) p :: swept now rest
        end
      else p :: swept now rest
  end.







(** ** Scenarios *)

(** A task function that does nothing. *)
Definition idle (k : nat) (fn : fnptr) (dt : Z) : cmd := Ret.

(** The one-shot task "bootstrap", due at second 2, alone in the list. *)
Definition bootstrap_task : HKTASK :=
  {| name := "bootstrap"; task := 1; data := 0; frequency := 0;
     type := HK_ONESHOT; nextdue := 2 |}.

Definition bootstrap_only : hk :=
  {| tasks := [bootstrap_task]; do_shutdown := false; hkheartbeat := 0;
     clock_ms := 0 |}.






(** The repeated task "ping", every 5 seconds, alone in the list. *)
Definition ping_only : hk :=
  {| tasks := [ {| name := "ping"; task := 1; data := 0; frequency := 5;
                   type := HK_REPEATED; nextdue := 5 |} ];
     do_shutdown := false; hkheartbeat := 0; clock_ms := 0 |}.

(** Two repeated tasks due at second 10, a second before it; the function
    of the first one works for three seconds. *)
Definition slow_first (k : nat) (fn : fnptr) (dt : Z) : cmd :=
  match fn with
  | 1 => Spend 3000 Ret
  | _ => Ret
  end.

Definition two_due : hk :=
  {| tasks := [ {| name := "a"; task := 1; data := 0; frequency := 5;
                   type := HK_REPEATED; nextdue := 10 |};
                {| name := "b"; task := 2; data := 0; frequency := 5;
                   type := HK_REPEATED; nextdue := 10 |} ];
     do_shutdown := false; hkheartbeat := 0; clock_ms := 9000 |}.

(** A repeated task registered with interval 0 at second 10, as
    [hktask_add("t", fn, data, 0)] leaves it. *)
Definition task_t : HKTASK :=
  {| name := "t"; task := 1; data := 0; frequency := 0;
     type := HK_REPEATED; nextdue := 10 |}.

Definition zero_interval : hk :=
  {| tasks := [task_t]; do_shutdown := false; hkheartbeat := 0;
     clock_ms := 10000 |}.

(** A repeated task "a", not due, and behind it a one-shot task registered
    under the same name, due at second 10. *)
Definition shared_name : hk :=
  {| tasks := [ {| name := "a"; task := 1; data := 0; frequency := 100;
                   type := HK_REPEATED; nextdue := 100 |};
                {| name := "a"; task := 2; data := 0; frequency := 0;
                   type := HK_ONESHOT; nextdue := 10 |} ];
     do_shutdown := false; hkheartbeat := 0; clock_ms := 10000 |}.

(** The repeated task "a", every 10 seconds, due at second 10. *)
Definition task_a (d : Z) : HKTASK :=
  {| name := "a"; task := 1; data := 0; frequency := 10;
     type := HK_REPEATED; nextdue := d |}.

Definition a_due : hk :=
  {| tasks := [task_a 10]; do_shutdown := false; hkheartbeat := 0;
     clock_ms := 10000 |}.







(** ** The task list under registration and removal *)

Lemma named_true (nm : string) (p : HKTASK) : named nm p = true <-> name p = nm.
Proof. unfold named. apply String.eqb_eq. Qed.

Lemma named_false (nm : string) (p : HKTASK) :
  named nm p = false <-> name p <> nm.
Proof. unfold named. apply String.eqb_neq. Qed.

Lemma has_name_In (nm : string) (l : list HKTASK) :
  has_name nm l = true <-> In nm (map name l).
Proof.
  unfold has_name. rewrite existsb_exists, in_map_iff. split.
  - intros (p & Hp & Hn). exists p. split; [now apply named_true | exact Hp].
  - intros (p & Hn & Hp). exists p. split; [exact Hp | now apply named_true].
Qed.

(** The walk of [hktask_add] refuses exactly the names some entry has and
    otherwise links the task behind the last entry. *)
Lemma add_walk_spec (nm : string) (t : HKTASK) (l : list HKTASK) :
  add_walk nm t l = if has_name nm l then None else Some (l ++ [t]).
Proof.
  induction l as [|p rest IH]; [reflexivity|].
  change (has_name nm (p :: rest)) with (named nm p || has_name nm rest).
  unfold named at 1. destruct rest as [|q rest].
  - simpl. destruct (String.eqb (name p) nm); reflexivity.
  - change (add_walk nm t (p :: q :: rest))
      with (if String.eqb (name p) nm then None
            else match add_walk nm t (q :: rest) with
                 | None => None
                 | Some r => Some (p :: r)
                 end).
    rewrite IH. destruct (String.eqb (name p) nm); [reflexivity|].
    rewrite orb_false_l. destruct (has_name nm (q :: rest)); reflexivity.
Qed.

Lemma oneshot_walk_spec (t : HKTASK) (l : list HKTASK) :
  oneshot_walk t l = l ++ [t].
Proof.
  induction l as [|p rest IH]; [reflexivity|].
  destruct rest as [|q rest]; [reflexivity|].
  change (oneshot_walk t (p :: q :: rest))
    with (p :: oneshot_walk t (q :: rest)).
  now rewrite IH.
Qed.

Lemma remove_walk_absent (nm : string) (l : list HKTASK) :
  has_name nm l = false -> remove_walk nm l = None.
Proof.
  induction l as [|p rest IH]; simpl; [reflexivity|].
  unfold named at 1. destruct (String.eqb (name p) nm); simpl; [discriminate|].
  intros H. now rewrite IH.
Qed.

(** Where the walk of [hktask_remove] stops. *)
Lemma remove_walk_found (nm : string) (l l' : list HKTASK) :
  remove_walk nm l = Some l' ->
  exists l1 e l2, l = l1 ++ e :: l2 /\ name e = nm /\
                  has_name nm l1 = false /\ l' = l1 ++ l2.
Proof.
  revert l'. induction l as [|p rest IH]; simpl; intros l' H; [discriminate|].
  destruct (String.eqb (name p) nm) eqn:E.
  - injection H as <-. exists [], p, rest. apply String.eqb_eq in E. now simpl.
  - destruct (remove_walk nm rest) as [r|] eqn:Er; [|discriminate].
    injection H as <-. destruct (IH r eq_refl) as (l1 & e & l2 & -> & He & H1 & ->).
    exists (p :: l1), e, l2. simpl. unfold named at 1. rewrite E. now simpl.
Qed.

Lemma remove_walk_has (nm : string) (l : list HKTASK) :
  has_name nm l = true -> exists l', remove_walk nm l = Some l'.
Proof.
  induction l as [|p rest IH]; simpl; [discriminate|].
  unfold named at 1. destruct (String.eqb (name p) nm); simpl.
  - intros _. now exists rest.
  - intros H. destruct (IH H) as (l' & ->). now eexists.
Qed.

Lemma remove_walk_app (nm : string) (l1 l2 : list HKTASK) :
  remove_walk nm (l1 ++ l2) =
  match remove_walk nm l1 with
  | Some r => Some (r ++ l2)
  | None => match remove_walk nm l2 with
            | Some r => Some (l1 ++ r)
            | None => None
            end
  end.
Proof.
  induction l1 as [|p rest IH]; cbn [app remove_walk].
  - now destruct (remove_walk nm l2).
  - destruct (String.eqb (name p) nm); [reflexivity|]. rewrite IH.
    destruct (remove_walk nm rest); [reflexivity|].
    now destruct (remove_walk nm l2).
Qed.

(** ** Registration *)

Lemma hktask_add_ok (nm : string) (fn : fnptr) (dt freq : Z) (st : hk) :
  hktask_add nm fn dt freq HeapOk st =
  if has_name nm (tasks st) then (0, st)
  else (to_int (time st + freq),
        set_tasks (tasks st ++ [repeated_task nm fn dt freq st]) st).
Proof.
  unfold hktask_add. rewrite add_walk_spec.
  destruct (has_name nm (tasks st)); reflexivity.
Qed.

Lemma hktask_oneshot_ok (nm : string) (fn : fnptr) (dt when : Z) (st : hk) :
  hktask_oneshot nm fn dt when HeapOk st =
  (to_int (time st + when),
   set_tasks (tasks st ++ [oneshot_task nm fn dt when st]) st).
Proof. unfold hktask_oneshot. now rewrite oneshot_walk_spec. Qed.

Lemma to_int_id (z : Z) : int_range z -> to_int z = z.
Proof.
  unfold int_range, to_int. intros H.
  destruct (Z_lt_le_dec z 0) as [Hn|Hp].
  - assert (E : z mod 4294967296 = z + 4294967296).
    { symmetry. apply Z.mod_unique with (q := -1); lia. }
    rewrite E. destruct (Z.ltb_spec (z + 4294967296) 2147483648); lia.
  - rewrite Z.mod_small by lia.
    destruct (Z.ltb_spec z 2147483648); lia.
Qed.

(** C4, as amended.  With the heap answering, [hktask_add] returns 0 and
    leaves the housekeeper as it was exactly when some entry of the list, of
    either type, has the name; otherwise it links the new repeated task behind
    the last entry and returns its due time as an [int]. *)
Theorem hktask_add_duplicate (nm : string) (fn : fnptr) (dt freq : Z) (st : hk) :
  hktask_add nm fn dt freq HeapOk st =
  if existsb (fun p => String.eqb (name p) nm) (tasks st) then (0, st)
  else (to_int (time st + freq),
        set_tasks (tasks st ++ [repeated_task nm fn dt freq st]) st).
Proof.
  unfold hktask_add. rewrite add_walk_spec. unfold has_name, named.
  destruct (existsb _ (tasks st)); reflexivity.
Qed.

(** C4, as stated, fails: no repeated task is called "bootstrap", the only
    entry of that name is a one-shot task, and [hktask_add] refuses the
    name. *)
Lemma hktask_add_refuses_oneshot_name :
  existsb (fun p => is_repeated p && named "bootstrap" p)
          (tasks bootstrap_only) = false /\
  hktask_add "bootstrap" 2 0 5 HeapOk bootstrap_only = (0, bootstrap_only).
Proof. split; reflexivity. Qed.





(** C10.  Both registration calls leave the entries of the list in place and
    in order and, when they register, link the new entry behind the last one
    ([hktask_add] registers when the heap answers and no entry has the name,
    [hktask_oneshot] when the heap answers); [hkshow_tasks] prints one row per
    entry in list order, so a registration adds one row at the end of the
    table and moves none.  A removal takes one entry out and leaves the
    others in their order, so the table shows the tasks that are left in the
    order of their registration. *)
Theorem registration_appends (nm : string) (fn : fnptr) (dt x : Z) (h : heap)
  (st : hk) :
  tasks (snd (hktask_add nm fn dt x h st)) =
    match h with
    | HeapOk => if has_name nm (tasks st) then tasks st
                else tasks st ++ [repeated_task nm fn dt x st]
    | _ => tasks st
    end /\
  tasks (snd (hktask_oneshot nm fn dt x h st)) =
    match h with
    | HeapOk => tasks st ++ [oneshot_task nm fn dt x st]
    | _ => tasks st
    end /\
  hkshow_tasks st =
    [Printf_header; Printf_rule; Acquire] ++ map row (tasks st) ++ [Release] /\
  (forall t : HKTASK,
     hkshow_tasks (set_tasks (tasks st ++ [t]) st) =
     removelast (hkshow_tasks st) ++ [row t; Release]) /\
  (tasks (snd (hktask_remove nm st)) = tasks st \/
   exists l1 e l2,
     tasks st = l1 ++ e :: l2 /\
     tasks (snd (hktask_remove nm st)) = l1 ++ l2).
Proof.
  assert (W : forall l, show_walk l = map row l).
  { induction l as [|p rest IH]; simpl; [reflexivity|]. now rewrite IH. }
  split; [|split; [|split; [|split]]].
  - destruct h; try reflexivity. rewrite hktask_add_ok.
    destruct (has_name nm (tasks st)); reflexivity.
  - destruct h; try reflexivity. now rewrite hktask_oneshot_ok.
  - unfold hkshow_tasks. now rewrite W.
  - intros t. unfold hkshow_tasks, set_tasks; cbn [tasks].
    rewrite !W, map_app. cbn [map].
    rewrite !app_assoc, removelast_last, <- !app_assoc. reflexivity.
  - unfold hktask_remove.
    destruct (remove_walk nm (tasks st)) as [l'|] eqn:E; [|now left].
    destruct (remove_walk_found nm _ _ E) as (l1 & e & l2 & L & _ & _ & ->).
    right. now exists l1, e, l2.
Qed.

(** ** Removal *)

(** C8.  [hktask_remove] on a name no entry has returns 0 and leaves the
    housekeeper, and so the list, as it was; on a name some entry has it
    returns 1 and the list it leaves is the list it found without the first
    entry of that name in list order, every other entry where it was; the
    flag, the heartbeat and the clock are not touched. *)
Theorem hktask_remove_first (nm : string) (st : hk) :
  (has_name nm (tasks st) = false ->
   hktask_remove nm st = (0, st) /\
   fst (hktask_remove nm st) = 0 /\
   tasks (snd (hktask_remove nm st)) = tasks st) /\
  (has_name nm (tasks st) = true ->
   exists l1 e l2,
     tasks st = l1 ++ e :: l2 /\ has_name nm l1 = false /\ name e = nm /\
     hktask_remove nm st = (1, set_tasks (l1 ++ l2) st) /\
     fst (hktask_remove nm st) = 1 /\
     tasks (snd (hktask_remove nm st)) = l1 ++ l2 /\
     do_shutdown (snd (hktask_remove nm st)) = do_shutdown st /\
     hkheartbeat (snd (hktask_remove nm st)) = hkheartbeat st /\
     clock_ms (snd (hktask_remove nm st)) = clock_ms st).
Proof.
  unfold hktask_remove. split; intros H.
  - rewrite remove_walk_absent by exact H. now repeat split.
  - destruct (remove_walk_has nm (tasks st) H) as (l' & E). rewrite E.
    destruct (remove_walk_found nm _ _ E) as (l1 & e & l2 & Hl & He & H1 & ->).
    exists l1, e, l2. repeat split; assumption || reflexivity.
Qed.

Lemma hktask_remove_first_witness :
  (has_name "ping" (tasks shared_name) = false /\
   fst (hktask_remove "ping" shared_name) = 0 /\
   tasks (snd (hktask_remove "ping" shared_name)) = tasks shared_name) /\
  (has_name "a" (tasks shared_name) = true /\
   exists l1 e l2,
     tasks shared_name = l1 ++ e :: l2 /\
     has_name "a" l1 = false /\ name e = "a" /\
     fst (hktask_remove "a" shared_name) = 1 /\
     tasks (snd (hktask_remove "a" shared_name)) = l1 ++ l2) /\
  map (fun p => (name p, type p))
      (tasks (snd (hktask_remove "a" shared_name))) = [("a", HK_ONESHOT)].
Proof.
  split; [|split]; try (split; [reflexivity|]).
  - apply (proj1 (hktask_remove_first "ping" shared_name) eq_refl).
  - destruct (proj2 (hktask_remove_first "a" shared_name) eq_refl)
      as (l1 & e & l2 & L & H1 & He & _ & R & T & _).
    exists l1, e, l2. repeat split; assumption.
  - reflexivity.
Defined.

(** ** The task table *)

Lemma writes_under_lock_rows (l : list HKTASK) (evs : list show_event) :
  writes_under_lock true (show_walk l ++ evs) =
  map row l ++ writes_under_lock true evs.
Proof.
  induction l as [|p rest IH]; simpl; [reflexivity|]. now rewrite IH.
Qed.

Lemma lock_after_rows (held : bool) (l : list HKTASK) (evs : list show_event) :
  lock_after held (show_walk l ++ evs) = lock_after held evs.
Proof. induction l as [|p rest IH]; simpl; [reflexivity | exact IH]. Qed.

(** C9, as amended.  [hkshow_tasks] prints the two heading lines, takes the
    lock, prints one row for every entry of the list as it stands, in list
    order and copying nothing, and gives the lock back as its last step: the
    rows, and only the rows, are written with the lock held, the lock is held
    up to the last row and is free when the function returns. *)
Theorem hkshow_tasks_rows_under_lock (st : hk) :
  hkshow_tasks st =
    [Printf_header; Printf_rule; Acquire] ++ map row (tasks st) ++ [Release] /\
  writes_under_lock false (hkshow_tasks st) = map row (tasks st) /\
  filter is_printf (hkshow_tasks st) =
    [Printf_header; Printf_rule] ++ map row (tasks st) /\
  lock_after false (removelast (hkshow_tasks st)) = true /\
  last (hkshow_tasks st) Acquire = Release /\
  lock_after false (hkshow_tasks st) = false.
Proof.
  assert (W : forall l, show_walk l = map row l).
  { induction l as [|p rest IH]; simpl; [reflexivity|]. now rewrite IH. }
  assert (F : forall l, filter is_printf (show_walk l ++ [Release]) = map row l).
  { induction l as [|p rest IH]; simpl; [reflexivity|]. now rewrite IH. }
  assert (E : hkshow_tasks st =
              ([Printf_header; Printf_rule; Acquire] ++ show_walk (tasks st))
              ++ [Release]).
  { unfold hkshow_tasks. now rewrite <- !app_assoc. }
  split; [|split; [|split; [|split; [|split]]]].
  - unfold hkshow_tasks. now rewrite W.
  - unfold hkshow_tasks. cbn [app writes_under_lock].
    rewrite writes_under_lock_rows. cbn. apply app_nil_r.
  - unfold hkshow_tasks. cbn [app filter is_printf]. now rewrite F.
  - rewrite E, removelast_last. cbn [app lock_after].
    rewrite <- (app_nil_r (show_walk (tasks st))). now rewrite lock_after_rows.
  - rewrite E. apply last_last.
  - unfold hkshow_tasks. cbn [app lock_after]. now rewrite lock_after_rows.
Qed.

(** C9, as stated, fails: with one task registered, its row is written to
    the DCB while the lock is held. *)
Lemma hkshow_tasks_writes_under_lock :
  writes_under_lock false (hkshow_tasks ping_only) =
  [Printf_row "ping" "Repeated" 5 5].
Proof. reflexivity. Qed.

(** ** The heartbeat *)

Lemma ticks_running (i : nat) (st : hk) :
  do_shutdown st = false ->
  ticks i st = inr {| tasks := tasks st; do_shutdown := false;
                      hkheartbeat := hkheartbeat st + Z.of_nat i;
                      clock_ms := clock_ms st + 100 * Z.of_nat i |}.
Proof.
  revert st. induction i as [|i IH]; intros st H.
  - simpl. rewrite Z.add_0_r, Z.add_0_r. destruct st; simpl in *. now subst.
  - cbn [ticks]. rewrite H, IH by exact H. cbn [beat thread_millisleep tasks
      do_shutdown hkheartbeat clock_ms]. do 2 f_equal; lia.
Qed.

Lemma ticks_stopped (i : nat) (st : hk) :
  do_shutdown st = true -> ticks (S i) st = inl st.
Proof. intros H. simpl. now rewrite H. Qed.

Lemma hktask_add_frame (nm : string) (fn : fnptr) (dt freq : Z) (h : heap)
  (st : hk) :
  let st' := snd (hktask_add nm fn dt freq h st) in
  hkheartbeat st' = hkheartbeat st /\ clock_ms st' = clock_ms st.
Proof.
  unfold hktask_add. destruct h; try (split; reflexivity).
  destruct (add_walk _ _ _); split; reflexivity.
Qed.

Lemma hktask_oneshot_frame (nm : string) (fn : fnptr) (dt when : Z) (h : heap)
  (st : hk) :
  let st' := snd (hktask_oneshot nm fn dt when h st) in
  hkheartbeat st' = hkheartbeat st /\ clock_ms st' = clock_ms st.
Proof. unfold hktask_oneshot. destruct h; split; reflexivity. Qed.

Lemma hktask_remove_frame (nm : string) (st : hk) :
  let st' := snd (hktask_remove nm st) in
  hkheartbeat st' = hkheartbeat st /\ clock_ms st' = clock_ms st.
Proof.
  unfold hktask_remove. destruct (remove_walk _ _); split; reflexivity.
Qed.

(** A task function leaves the heartbeat alone and the clock does not run
    backwards under it. *)
Lemma run_cmd_frame (c : cmd) (st : hk) :
  hkheartbeat (run_cmd c st) = hkheartbeat st /\
  clock_ms st <= clock_ms (run_cmd c st).
Proof.
  revert st. induction c as [|nm fn dt freq h k IH|nm fn dt when h k IH
                            |nm k IH|k IH|ms k IH]; intros st; cbn [run_cmd].
  - split; [reflexivity | lia].
  - pose proof (hktask_add_frame nm fn dt freq h st) as F.
    destruct (hktask_add nm fn dt freq h st) as [r st']. cbn in F.
    destruct (IH r st') as [A B]. split; [rewrite A; tauto | lia].
  - pose proof (hktask_oneshot_frame nm fn dt when h st) as F.
    destruct (hktask_oneshot nm fn dt when h st) as [r st']. cbn in F.
    destruct (IH r st') as [A B]. split; [rewrite A; tauto | lia].
  - pose proof (hktask_remove_frame nm st) as F.
    destruct (hktask_remove nm st) as [r st']. cbn in F.
    destruct (IH r st') as [A B]. split; [rewrite A; tauto | lia].
  - destruct (IH (hkshutdown st)) as [A B]. split; [exact A | exact B].
  - destruct (IH (thread_millisleep (Z.of_nat ms) st)) as [A B].
    cbn in A, B. split; [exact A | lia].
Qed.

Lemma state_of_after (tr : list run) (r : progress) :
  state_of (after tr r) = state_of r.
Proof. destruct r; reflexivity. Qed.

Lemma trace_after (tr : list run) (r : progress) :
  trace (after tr r) = tr ++ trace r.
Proof. destruct r; reflexivity. Qed.

Section Heartbeat.

Variable code : nat -> fnptr -> Z -> cmd.

Lemma scan_step_frame (now : Z) (k : nat) (st : hk) (r : run) (st' : hk) :
  scan_step code now k st = Some (r, st') ->
  hkheartbeat st' = hkheartbeat st /\ clock_ms st <= clock_ms st' /\
  at_ms r = clock_ms st.
Proof.
  unfold scan_step. destruct (scan_walk now (tasks st)) as [[e l]|];
    [|discriminate].
  intros H. injection H as <- <-. cbn [at_ms].
  pose proof (run_cmd_frame (code k (task e) (data e)) (set_tasks l st))
    as [A B].
  cbn [set_tasks hkheartbeat clock_ms] in A, B.
  destruct (type e).
  - repeat split; [exact A | exact B].
  - pose proof (hktask_remove_frame (name e)
      (run_cmd (code k (task e) (data e)) (set_tasks l st))) as [C D].
    cbn zeta in C, D. repeat split; [congruence | lia].
Qed.

Lemma hkscan_heartbeat (fuel : nat) (now : Z) (k : nat) (st : hk) :
  hkheartbeat (state_of (hkscan code fuel now k st)) = hkheartbeat st.
Proof.
  revert k st. induction fuel as [|f IH]; intros k st; cbn [hkscan];
    destruct (scan_step code now k st) as [[r st']|] eqn:E; try reflexivity.
  rewrite state_of_after, IH. now apply scan_step_frame in E.
Qed.

(** A scan does not make the thread return. *)
Lemma hkscan_goes_on (fuel : nat) (now : Z) (k : nat) (st : hk)
  (tr : list run) (s : hk) :
  hkscan code fuel now k st <> Returned tr s.
Proof.
  revert k st tr s. induction fuel as [|f IH]; intros k st tr s; cbn [hkscan];
    destruct (scan_step code now k st) as [[r st']|]; try discriminate.
  destruct (hkscan code f now (S k) st') eqn:E; cbn [after]; try discriminate.
  now apply IH in E.
Qed.

Lemma hkcycle_heartbeat (fuel : nat) (k : nat) (st : hk) :
  match hkcycle code fuel k st with
  | Returned _ st' => hkheartbeat st' = hkheartbeat st
  | Spinning _ st' => hkheartbeat st' = hkheartbeat st + 10
  | Running _ st' => hkheartbeat st' = hkheartbeat st + 10
  end.
Proof.
  unfold hkcycle. destruct (do_shutdown st) eqn:D.
  - now rewrite ticks_stopped.
  - rewrite ticks_running by exact D.
    set (st1 := {| tasks := tasks st; do_shutdown := false;
                   hkheartbeat := hkheartbeat st + Z.of_nat 10;
                   clock_ms := clock_ms st + 100 * Z.of_nat 10 |}).
    pose proof (hkscan_heartbeat fuel (time st1) k st1) as H.
    destruct (hkscan code fuel (time st1) k st1) eqn:E; cbn in H;
      try exact H.
    now apply hkscan_goes_on in E.
Qed.

(** C5, as amended.  The heartbeat is 0 when the housekeeper starts; every
    tick of the driver adds exactly one to it, ten in the ten ticks (one
    second of sleeping) of a turn; no scan and no task function changes it,
    so it never goes down while the thread runs, and after [turns] full
    turns it has grown by ten times [turns]. *)
Theorem heartbeat_every_tick (turns fuel i k : nat) (clock : Z) (st : hk) :
  hkheartbeat (hk_start clock) = 0 /\
  hkheartbeat (ticked (ticks i st)) =
    (if do_shutdown st then hkheartbeat st
     else hkheartbeat st + Z.of_nat i) /\
  hkheartbeat st <= hkheartbeat (state_of (hkthread code turns fuel k st)) /\
  match hkthread code turns fuel k st with
  | Running _ st' => hkheartbeat st' = hkheartbeat st + 10 * Z.of_nat turns
  | _ => True
  end.
Proof.
  split; [reflexivity|]. split.
  - destruct (do_shutdown st) eqn:D.
    + destruct i; [reflexivity|]. now rewrite ticks_stopped.
    + now rewrite ticks_running.
  - revert k st. induction turns as [|n IH]; intros k st.
    + cbn. split; lia.
    + cbn [hkthread]. pose proof (hkcycle_heartbeat fuel k st) as H.
      destruct (hkcycle code fuel k st) as [tr s|tr s|tr s]; cbn [state_of].
      * split; [lia | exact I].
      * split; [lia | exact I].
      * destruct (IH (k + List.length tr)%nat s) as [A B].
        rewrite state_of_after. split; [lia|].
        destruct (hkthread code n fuel (k + List.length tr) s); cbn [after];
          try exact I. lia.
Qed.

End Heartbeat.

(** C5, as stated, fails: ten ticks after the start the heartbeat is 10, not
    one. *)
Lemma heartbeat_after_ten_ticks :
  hkheartbeat (ticked (ticks 10 (hk_start 0))) = 10 /\
  clock_ms (ticked (ticks 10 (hk_start 0))) = 1000.
Proof. split; reflexivity. Qed.

(** ** The walk of the scan *)

Lemma scan_walk_none (now : Z) (l : list HKTASK) :
  scan_walk now l = None <-> Forall (fun p => due now p = false) l.
Proof.
  induction l as [|p rest IH]; simpl.
  - split; [constructor | reflexivity].
  - destruct (due now p) eqn:D.
    + split; [discriminate|]. intros H. inversion H; congruence.
    + destruct (scan_walk now rest) as [[e r]|].
      * split; [discriminate|]. intros H. inversion H; subst.
        now apply IH in H3.
      * split; [|reflexivity]. intros _. constructor; [exact D | now apply IH].
Qed.

(** Where the walk stops and what it writes. *)
Lemma scan_walk_found (now : Z) (l : list HKTASK) (e : HKTASK)
  (l' : list HKTASK) :
  scan_walk now l = Some (e, l') ->
  exists l1 l2,
    l = l1 ++ e :: l2 /\ Forall (fun p => due now p = false) l1 /\
    due now e = true /\
    l' = l1 ++ set_nextdue (now + frequency e) e :: l2.
Proof.
  revert l'. induction l as [|p rest IH]; simpl; intros l' H; [discriminate|].
  destruct (due now p) eqn:D.
  - injection H as <- <-. exists [], rest. repeat split; [constructor | exact D].
  - destruct (scan_walk now rest) as [[e' r]|]; [|discriminate].
    injection H as <- <-.
    destruct (IH r eq_refl) as (l1 & l2 & -> & F & De & ->).
    exists (p :: l1), l2. repeat split; [now constructor | exact De].
Qed.

Lemma scan_walk_app (now : Z) (pre l : list HKTASK) :
  Forall (fun p => due now p = false) pre ->
  scan_walk now (pre ++ l) =
  match scan_walk now l with
  | Some (e, r) => Some (e, pre ++ r)
  | None => None
  end.
Proof.
  induction pre as [|q pre IH]; intros F; cbn [app scan_walk].
  - now destruct (scan_walk now l) as [[e r]|].
  - inversion F as [|? ? Dq Fp]; subst. rewrite Dq, (IH Fp).
    now destruct (scan_walk now l) as [[e r]|].
Qed.

Lemma time_mono (st st' : hk) :
  clock_ms st <= clock_ms st' -> time st <= time st'.
Proof. intros H. unfold time. apply Z.div_le_mono; lia. Qed.

Section Schedule.

Variable code : nat -> fnptr -> Z -> cmd.

(** Every run of a scan found its entry due at the clock reading the scan
    was given, wrote that reading plus the interval, and called the function
    no earlier than that reading. *)
Lemma hkscan_runs (fuel : nat) (now : Z) (k : nat) (st : hk) :
  now <= time st ->
  Forall (fun r => nextdue (ran r) <= now /\
                   wrote r = now + frequency (ran r) /\
                   now <= at_ms r / 1000)
         (trace (hkscan code fuel now k st)).
Proof.
  revert k st. induction fuel as [|f IH]; intros k st T; cbn [hkscan];
    destruct (scan_step code now k st) as [[r st']|] eqn:E; try constructor.
  - rewrite trace_after. cbn [app]. constructor.
    + pose proof (scan_step_frame code now k st r st' E) as (_ & _ & A).
      unfold scan_step in E.
      destruct (scan_walk now (tasks st)) as [[e l]|] eqn:W; [|discriminate].
      apply scan_walk_found in W. destruct W as (l1 & l2 & _ & _ & D & _).
      injection E as <- _. cbn [ran wrote at_ms]. unfold due in D.
      apply Z.leb_le in D. repeat split; [exact D | exact T].
    + apply IH. apply scan_step_frame in E. destruct E as (_ & C & _).
      pose proof (time_mono st st' C). lia.
Qed.

End Schedule.

(** ** The bound on the executions of a scan *)

Section Pending.

Variable now : Z.

Lemma due_oneshots_cons (m : string) (p : HKTASK) (l : list HKTASK) :
  due_oneshots now m (p :: l) =
  ((if due_oneshot now m p then 1 else 0) + due_oneshots now m l)%nat.
Proof.
  unfold due_oneshots. simpl. destruct (due_oneshot now m p); reflexivity.
Qed.

Lemma due_oneshots_app (m : string) (l1 l2 : list HKTASK) :
  due_oneshots now m (l1 ++ l2) =
  (due_oneshots now m l1 + due_oneshots now m l2)%nat.
Proof. unfold due_oneshots. now rewrite filter_app, length_app. Qed.

Lemma pending_cons (p : HKTASK) (l : list HKTASK) :
  pending now (p :: l) =
  ((if due now p && is_repeated p then 1 else 0)
   + due_oneshots now (name p) (p :: l) + pending now l)%nat.
Proof. reflexivity. Qed.

Lemma due_oneshot_own (m : string) (p : HKTASK) :
  due_oneshot now m p = true -> due_oneshot now (name p) p = true.
Proof.
  unfold due_oneshot, named. intros H.
  apply andb_true_iff in H. destruct H as [H _]. rewrite H.
  now rewrite String.eqb_refl.
Qed.

Lemma pending_app_idle (l : list HKTASK) (t : HKTASK) :
  due now t = false -> pending now (l ++ [t]) = pending now l.
Proof.
  intros D.
  assert (Z0 : forall m, due_oneshots now m [t] = 0%nat).
  { intros m. unfold due_oneshots, due_oneshot. simpl. now rewrite D. }
  induction l as [|p rest IH].
  - simpl. unfold due_oneshot. now rewrite D.
  - change ((p :: rest) ++ [t]) with (p :: (rest ++ [t])).
    rewrite !pending_cons, IH, !due_oneshots_cons, due_oneshots_app, Z0. lia.
Qed.

Lemma settles_refl (l : list HKTASK) : settles now l l.
Proof. intros m. split; lia. Qed.

Lemma settles_trans (l1 l2 l3 : list HKTASK) :
  settles now l1 l2 -> settles now l2 l3 -> settles now l1 l3.
Proof.
  intros A B m. destruct (A m) as [A1 A2]. destruct (B m) as [B1 B2].
  split; lia.
Qed.

Lemma settles_pending (l l' : list HKTASK) :
  settles now l l' -> (pending now l' <= pending now l)%nat.
Proof. intros A. destruct (A ""%string) as [A1 A2]. lia. Qed.

Lemma settles_append (l : list HKTASK) (t : HKTASK) :
  due now t = false -> settles now l (l ++ [t]).
Proof.
  intros D m. rewrite pending_app_idle by exact D. rewrite due_oneshots_app.
  assert (Z0 : due_oneshots now m [t] = 0%nat).
  { unfold due_oneshots, due_oneshot. simpl. now rewrite D. }
  rewrite Z0. split; lia.
Qed.

(** Unlinking an entry, whichever it is. *)
Lemma settles_unlink (l1 l2 : list HKTASK) (e : HKTASK) :
  settles now (l1 ++ e :: l2) (l1 ++ l2).
Proof.
  intros m. split.
  - rewrite !due_oneshots_app, due_oneshots_cons. lia.
  - revert m. induction l1 as [|p rest IH]; intros m.
    + cbn [app]. rewrite pending_cons, !due_oneshots_cons.
      destruct (due_oneshot now m e) eqn:E.
      * rewrite (due_oneshot_own m e E). lia.
      * lia.
    + cbn [app]. rewrite !pending_cons, !due_oneshots_cons.
      pose proof (IH m) as A.
      assert (B : (due_oneshots now (name p) (rest ++ l2)
                   <= due_oneshots now (name p) (rest ++ e :: l2))%nat).
      { rewrite !due_oneshots_app, due_oneshots_cons. lia. }
      lia.
Qed.

(** Unlinking the first entry of a name that has a due one-shot entry. *)
Lemma pending_unlink_first (nm : string) (l1 l2 : list HKTASK) (e : HKTASK) :
  has_name nm l1 = false -> name e = nm ->
  (1 <= due_oneshots now nm (l1 ++ e :: l2))%nat ->
  (pending now (l1 ++ l2) < pending now (l1 ++ e :: l2))%nat.
Proof.
  intros H1 He. induction l1 as [|p rest IH]; cbn [app]; intros C.
  - rewrite pending_cons, He. lia.
  - simpl in H1. apply orb_false_iff in H1. destruct H1 as [Np Hr].
    rewrite !pending_cons, !due_oneshots_cons.
    rewrite due_oneshots_cons in C.
    assert (E : due_oneshot now nm p = false).
    { unfold due_oneshot. rewrite Np. apply andb_false_r. }
    rewrite E in C. specialize (IH Hr C).
    assert (B : (due_oneshots now (name p) (rest ++ l2)
                 <= due_oneshots now (name p) (rest ++ e :: l2))%nat).
    { rewrite !due_oneshots_app, due_oneshots_cons. lia. }
    lia.
Qed.

(** The write of the scan into the entry it stops at. *)
Lemma pending_write_still_due (l1 l2 : list HKTASK) (e : HKTASK) (d : Z) :
  due now (set_nextdue d e) = due now e ->
  pending now (l1 ++ set_nextdue d e :: l2) = pending now (l1 ++ e :: l2) /\
  forall m, due_oneshots now m (l1 ++ set_nextdue d e :: l2)
            = due_oneshots now m (l1 ++ e :: l2).
Proof.
  intros D.
  assert (O : forall m, due_oneshot now m (set_nextdue d e)
                        = due_oneshot now m e).
  { intros m. unfold due_oneshot. now rewrite D. }
  assert (C : forall l m, due_oneshots now m (l ++ set_nextdue d e :: l2)
                          = due_oneshots now m (l ++ e :: l2)).
  { intros l m. now rewrite !due_oneshots_app, !due_oneshots_cons, O. }
  split; [|apply C].
  induction l1 as [|p rest IH]; cbn [app].
  - rewrite !pending_cons, !due_oneshots_cons, D, O. reflexivity.
  - rewrite !pending_cons, !due_oneshots_cons, IH, C. reflexivity.
Qed.

Lemma pending_write_not_due (l1 l2 : list HKTASK) (e : HKTASK) (d : Z) :
  due now e = true -> due now (set_nextdue d e) = false ->
  (pending now (l1 ++ set_nextdue d e :: l2) < pending now (l1 ++ e :: l2))%nat.
Proof.
  intros De D.
  assert (O : forall m, due_oneshot now m (set_nextdue d e) = false).
  { intros m. unfold due_oneshot. now rewrite D. }
  induction l1 as [|p rest IH]; cbn [app].
  - rewrite !pending_cons, !due_oneshots_cons, D, O, De. cbn [andb].
    unfold due_oneshot, named. rewrite De, String.eqb_refl.
    unfold is_repeated, is_oneshot. cbn [set_nextdue name type].
    destruct (type e); cbn; lia.
  - rewrite !pending_cons, !due_oneshots_cons.
    rewrite !due_oneshots_app, !due_oneshots_cons, O.
    destruct (due_oneshot now (name p) e); lia.
Qed.

End Pending.

(** ** What the calls of a task function do to the list *)

Lemma hktask_add_effect (nm : string) (fn : fnptr) (dt freq : Z) (h : heap)
  (st : hk) :
  snd (hktask_add nm fn dt freq h st) = st \/
  (has_name nm (tasks st) = false /\
   snd (hktask_add nm fn dt freq h st) =
   set_tasks (tasks st ++ [repeated_task nm fn dt freq st]) st).
Proof.
  destruct h; try (left; reflexivity). rewrite hktask_add_ok.
  destruct (has_name nm (tasks st)); [left | right]; now simpl.
Qed.

Lemma hktask_oneshot_effect (nm : string) (fn : fnptr) (dt when : Z) (h : heap)
  (st : hk) :
  snd (hktask_oneshot nm fn dt when h st) = st \/
  snd (hktask_oneshot nm fn dt when h st) =
  set_tasks (tasks st ++ [oneshot_task nm fn dt when st]) st.
Proof.
  destruct h; try (left; reflexivity). rewrite hktask_oneshot_ok. now right.
Qed.

Lemma hktask_remove_effect (nm : string) (st : hk) :
  (has_name nm (tasks st) = false /\ snd (hktask_remove nm st) = st) \/
  (exists l1 e l2,
     tasks st = l1 ++ e :: l2 /\ has_name nm l1 = false /\ name e = nm /\
     snd (hktask_remove nm st) = set_tasks (l1 ++ l2) st).
Proof.
  unfold hktask_remove. destruct (has_name nm (tasks st)) eqn:H.
  - right. destruct (remove_walk_has nm _ H) as (l' & E). rewrite E.
    destruct (remove_walk_found nm _ _ E) as (l1 & e & l2 & A & B & C & ->).
    exists l1, e, l2. repeat split; assumption.
  - left. rewrite remove_walk_absent by exact H. now split.
Qed.

Section Termination.

Variable now : Z.

Lemma calm_app_idle (l : list HKTASK) (t : HKTASK) :
  calm now l -> due now t = false -> calm now (l ++ [t]).
Proof.
  intros C D. apply Forall_app. split; [exact C|].
  constructor; [|constructor]. congruence.
Qed.

Lemma calm_unlink (l1 l2 : list HKTASK) (e : HKTASK) :
  calm now (l1 ++ e :: l2) -> calm now (l1 ++ l2).
Proof.
  unfold calm. rewrite !Forall_app. intros [A B]. inversion B. now split.
Qed.

Lemma calm_write (l1 l2 : list HKTASK) (e : HKTASK) :
  calm now (l1 ++ e :: l2) -> due now e = true ->
  calm now (l1 ++ set_nextdue (now + frequency e) e :: l2).
Proof.
  unfold calm. rewrite !Forall_app. intros [A B] D. inversion B; subst.
  split; [exact A|]. constructor; [|assumption].
  cbn [frequency set_nextdue]. intros _ R. apply H1; [exact D | exact R].
Qed.

Lemma has_name_no_due_oneshots (nm : string) (l : list HKTASK) :
  has_name nm l = false -> due_oneshots now nm l = 0%nat.
Proof.
  induction l as [|p rest IH]; [reflexivity|]. simpl. intros H.
  apply orb_false_iff in H. destruct H as [Np Hr].
  rewrite due_oneshots_cons, IH by exact Hr.
  unfold due_oneshot. rewrite Np, andb_false_r. reflexivity.
Qed.

(** With registrations that all ask for a positive interval or delay, made
    at or after [now], the calls of a task function add no due entry. *)
Lemma run_cmd_settles (c : cmd) (st : hk) :
  inserts_ahead c -> now <= time st ->
  settles now (tasks st) (tasks (run_cmd c st)) /\
  (calm now (tasks st) -> calm now (tasks (run_cmd c st))) /\
  now <= time (run_cmd c st).
Proof.
  revert st. induction c as [|nm fn dt freq h k IH|nm fn dt when h k IH
                            |nm k IH|k IH|ms k IH]; intros st A T;
    cbn [run_cmd inserts_ahead] in *.
  - split; [apply settles_refl | split; [tauto | exact T]].
  - destruct A as [Pos A].
    pose proof (hktask_add_effect nm fn dt freq h st) as E.
    destruct (hktask_add nm fn dt freq h st) as [r st']. cbn [snd] in E.
    destruct E as [-> | [_ ->]]; [now apply IH|].
    assert (D : due now (repeated_task nm fn dt freq st) = false).
    { unfold due. cbn. apply Z.leb_gt. lia. }
    destruct (IH r (set_tasks (tasks st ++ [repeated_task nm fn dt freq st]) st)
                (A r) T) as (S1 & C1 & T1). cbn [set_tasks tasks] in S1, C1.
    split; [|split; [|exact T1]].
    + eapply settles_trans; [apply settles_append; exact D | exact S1].
    + intros C. apply C1. now apply calm_app_idle.
  - destruct A as [Pos A].
    pose proof (hktask_oneshot_effect nm fn dt when h st) as E.
    destruct (hktask_oneshot nm fn dt when h st) as [r st']. cbn [snd] in E.
    destruct E as [-> | ->]; [now apply IH|].
    assert (D : due now (oneshot_task nm fn dt when st) = false).
    { unfold due. cbn. apply Z.leb_gt. lia. }
    destruct (IH r (set_tasks (tasks st ++ [oneshot_task nm fn dt when st]) st)
                (A r) T) as (S1 & C1 & T1). cbn [set_tasks tasks] in S1, C1.
    split; [|split; [|exact T1]].
    + eapply settles_trans; [apply settles_append; exact D | exact S1].
    + intros C. apply C1. now apply calm_app_idle.
  - pose proof (hktask_remove_effect nm st) as E.
    destruct (hktask_remove nm st) as [r st']. cbn [snd] in E.
    destruct E as [[_ ->] | (l1 & e & l2 & L & _ & _ & ->)]; [now apply IH|].
    destruct (IH r (set_tasks (l1 ++ l2) st) (A r) T) as (S1 & C1 & T1).
    cbn [set_tasks tasks] in S1, C1. rewrite L.
    split; [|split; [|exact T1]].
    + eapply settles_trans; [apply settles_unlink | exact S1].
    + intros C. apply C1. now apply calm_unlink in C.
  - apply (IH (hkshutdown st) A T).
  - apply (IH (thread_millisleep (Z.of_nat ms) st) A).
    unfold time in *. cbn [thread_millisleep clock_ms].
    assert (clock_ms st / 1000 <= (clock_ms st + Z.of_nat ms) / 1000)
      by (apply Z.div_le_mono; lia). lia.
Qed.

Variable code : nat -> fnptr -> Z -> cmd.
Hypothesis ahead :
  forall (k : nat) (fn : fnptr) (dt : Z), inserts_ahead (code k fn dt).

(** Every execution of the scan lowers the bound. *)
Lemma scan_step_pending (k : nat) (st : hk) (r : run) (st' : hk) :
  scan_step code now k st = Some (r, st') ->
  calm now (tasks st) -> now <= time st ->
  (pending now (tasks st') < pending now (tasks st))%nat /\
  calm now (tasks st') /\ now <= time st'.
Proof.
  unfold scan_step.
  destruct (scan_walk now (tasks st)) as [[e l0]|] eqn:W; [|discriminate].
  destruct (scan_walk_found now _ e l0 W) as (l1 & l2 & L & _ & De & ->).
  intros H C T. injection H as _ <-. rewrite L in *.
  set (e' := set_nextdue (now + frequency e) e) in *.
  destruct (run_cmd_settles (code k (task e) (data e))
              (set_tasks (l1 ++ e' :: l2) st) (ahead _ _ _) T)
    as (S1 & C1 & T1).
  cbn [set_tasks tasks] in S1, C1.
  specialize (C1 (calm_write l1 l2 e C De)).
  set (st2 := run_cmd (code k (task e) (data e))
                (set_tasks (l1 ++ e' :: l2) st)) in *.
  pose proof (settles_pending now _ _ S1) as P1.
  destruct (type e) eqn:Ty.
  - (* a repeated task: its interval is positive, it is due no more *)
    split; [|split; assumption].
    assert (D' : due now e' = false).
    { unfold calm in C. rewrite Forall_app in C. destruct C as [_ C].
      inversion C; subst. unfold due. cbn. apply Z.leb_gt.
      assert (0 < frequency e); [|lia].
      apply H1; [exact De|]. unfold is_repeated. now rewrite Ty. }
    pose proof (pending_write_not_due now l1 l2 e _ De D'). fold e' in H. lia.
  - (* a one-shot task: hktask_remove on its name follows *)
    pose proof (hktask_remove_effect (name e) st2) as E.
    assert (F : forall s, time (snd (hktask_remove (name e) s)) = time s).
    { intros s. unfold time. now rewrite (proj2 (hktask_remove_frame (name e) s)). }
    rewrite F. split; [|split; [|exact T1]].
    + assert (Q : (pending now (tasks (snd (hktask_remove (name e) st2)))
                   <= pending now (tasks st2))%nat /\
                  ((1 <= due_oneshots now (name e) (l1 ++ e' :: l2))%nat ->
                   (pending now (tasks (snd (hktask_remove (name e) st2)))
                    < pending now (l1 ++ e' :: l2))%nat)).
      { destruct E as [[Ab ->] | (a & x & b & La & Ha & Hx & ->)].
        - split; [lia|]. intros G.
          pose proof (has_name_no_due_oneshots _ _ Ab) as Z0.
          destruct (S1 (name e)) as [_ S2]. lia.
        - cbn [set_tasks tasks]. rewrite La in *.
          pose proof (settles_pending now _ _ (settles_unlink now a b x)) as U.
          split; [exact U|]. intros G.
          destruct (Nat.eq_dec (due_oneshots now (name e) (a ++ x :: b)) 0)
            as [Z0|NZ].
          + destruct (S1 (name e)) as [_ S2]. lia.
          + assert (N1 : (1 <= due_oneshots now (name e) (a ++ x :: b))%nat)
              by lia.
            pose proof (pending_unlink_first now (name e) a b x Ha Hx N1). lia. }
      destruct Q as [Q1 Q2].
      destruct (due now e') eqn:D'.
      * assert (D2 : due now e' = due now e) by congruence.
        destruct (pending_write_still_due now l1 l2 e _ D2) as [P0 _].
        fold e' in P0. rewrite <- P0. apply Q2.
        rewrite due_oneshots_app, due_oneshots_cons.
        assert (O : due_oneshot now (name e) e' = true).
        { unfold due_oneshot, named, is_oneshot. rewrite D'. cbn.
          now rewrite Ty, String.eqb_refl. }
        rewrite O. lia.
      * pose proof (pending_write_not_due now l1 l2 e _ De D'). fold e' in H.
        lia.
    + destruct E as [[_ ->] | (a & x & b & La & _ & _ & ->)]; [exact C1|].
      cbn [set_tasks tasks]. rewrite La in C1. now apply calm_unlink in C1.
Qed.

Lemma hkscan_ends_within (n : nat) (k : nat) (st : hk) :
  (pending now (tasks st) <= n)%nat ->
  calm now (tasks st) -> now <= time st ->
  exists tr st',
    hkscan code n now k st = Running tr st' /\ (List.length tr <= n)%nat /\
    Forall (fun p => due now p = false) (tasks st').
Proof.
  revert k st. induction n as [|n IH]; intros k st P C T; cbn [hkscan];
    destruct (scan_step code now k st) as [[r st1]|] eqn:E.
  - destruct (scan_step_pending k st r st1 E C T) as (L & _). exfalso. lia.
  - exists [], st. repeat split; [cbn; lia|]. unfold scan_step in E.
    destruct (scan_walk now (tasks st)) as [[e l]|] eqn:W; [discriminate|].
    now apply scan_walk_none.
  - destruct (scan_step_pending k st r st1 E C T) as (L & C1 & T1).
    destruct (IH (S k) st1) as (tr & st' & H & Len & F);
      [lia | exact C1 | exact T1|].
    exists (r :: tr), st'. rewrite H. cbn. repeat split; [lia | exact F].
  - exists [], st. repeat split; [cbn; lia|]. unfold scan_step in E.
    destruct (scan_walk now (tasks st)) as [[e l]|] eqn:W; [discriminate|].
    now apply scan_walk_none.
Qed.

End Termination.

(** ** Entries of one name under the calls of a task function *)


Section OneName.

Variable n : string.

Lemma count_name_app (l1 l2 : list HKTASK) :
  count_name n (l1 ++ l2) = (count_name n l1 + count_name n l2)%nat.
Proof. unfold count_name. now rewrite filter_app, length_app. Qed.

Lemma count_name_cons (p : HKTASK) (l : list HKTASK) :
  count_name n (p :: l) =
  ((if named n p then 1 else 0) + count_name n l)%nat.
Proof. unfold count_name. cbn [filter]. now destruct (named n p). Qed.

Lemma count_name_absent (l : list HKTASK) :
  has_name n l = false <-> count_name n l = 0%nat.
Proof.
  unfold count_name. induction l as [|p rest IH]; simpl; [tauto|].
  destruct (named n p); simpl; [|exact IH]. split; discriminate.
Qed.

Lemma filter_named_write (l1 l2 : list HKTASK) (e : HKTASK) (d : Z) :
  name e <> n ->
  filter (named n) (l1 ++ set_nextdue d e :: l2)
  = filter (named n) (l1 ++ e :: l2).
Proof.
  intros N. rewrite !filter_app. cbn [filter].
  assert (A : named n (set_nextdue d e) = false) by now apply named_false.
  assert (B : named n e = false) by now apply named_false.
  now rewrite A, B.
Qed.

Lemma count_name_write (l1 l2 : list HKTASK) (e : HKTASK) (d : Z) :
  count_name n (l1 ++ set_nextdue d e :: l2) = count_name n (l1 ++ e :: l2).
Proof.
  now rewrite !count_name_app, !count_name_cons.
Qed.

Lemma filter_named_unlink (l1 l2 : list HKTASK) (e : HKTASK) :
  name e <> n ->
  filter (named n) (l1 ++ l2) = filter (named n) (l1 ++ e :: l2).
Proof.
  intros N. rewrite !filter_app. cbn [filter].
  assert (B : named n e = false) by now apply named_false.
  now rewrite B.
Qed.

Lemma filter_named_append (l : list HKTASK) (t : HKTASK) :
  name t <> n -> filter (named n) (l ++ [t]) = filter (named n) l.
Proof.
  intros N. rewrite filter_app. cbn [filter].
  assert (B : named n t = false) by now apply named_false.
  rewrite B. apply app_nil_r.
Qed.

(** [hktask_remove] on the name takes one entry of the name, if there is
    one. *)
Lemma hktask_remove_count (st : hk) :
  count_name n (tasks (snd (hktask_remove n st)))
  = Nat.pred (count_name n (tasks st)).
Proof.
  destruct (hktask_remove_effect n st)
    as [[A ->] | (l1 & e & l2 & L & H1 & He & ->)].
  - apply count_name_absent in A. now rewrite A.
  - cbn [set_tasks tasks]. rewrite L, !count_name_app, count_name_cons.
    apply count_name_absent in H1. rewrite H1.
    apply named_true in He. now rewrite He.
Qed.

Lemma hktask_remove_other (m : string) (st : hk) :
  m <> n ->
  filter (named n) (tasks (snd (hktask_remove m st)))
  = filter (named n) (tasks st).
Proof.
  intros N. destruct (hktask_remove_effect m st)
    as [[_ ->] | (l1 & e & l2 & L & _ & He & ->)]; [reflexivity|].
  cbn [set_tasks tasks]. rewrite L. apply filter_named_unlink. congruence.
Qed.

Lemma hktask_remove_shrinks (m : string) (st : hk) :
  (count_name n (tasks (snd (hktask_remove m st)))
   <= count_name n (tasks st))%nat.
Proof.
  destruct (hktask_remove_effect m st)
    as [[_ ->] | (l1 & e & l2 & L & _ & _ & ->)]; [lia|].
  cbn [set_tasks tasks]. rewrite L, !count_name_app, count_name_cons. lia.
Qed.

(** A function that registers nothing under the name leaves no more
    entries of the name than it found. *)
Lemma run_cmd_count (c : cmd) (st : hk) :
  never_inserts n c ->
  (count_name n (tasks (run_cmd c st)) <= count_name n (tasks st))%nat.
Proof.
  revert st. induction c as [|nm fn dt freq h k IH|nm fn dt when h k IH
                            |nm k IH|k IH|ms k IH]; intros st A;
    cbn [run_cmd never_inserts] in *.
  - lia.
  - destruct A as [N A].
    pose proof (hktask_add_effect nm fn dt freq h st) as E.
    destruct (hktask_add nm fn dt freq h st) as [r st']. cbn [snd] in E.
    destruct E as [-> | [_ ->]]; [now apply IH|].
    etransitivity; [apply IH, A|]. cbn [set_tasks tasks]. unfold count_name.
    rewrite filter_named_append by exact N. lia.
  - destruct A as [N A].
    pose proof (hktask_oneshot_effect nm fn dt when h st) as E.
    destruct (hktask_oneshot nm fn dt when h st) as [r st']. cbn [snd] in E.
    destruct E as [-> | ->]; [now apply IH|].
    etransitivity; [apply IH, A|]. cbn [set_tasks tasks]. unfold count_name.
    rewrite filter_named_append by exact N. lia.
  - pose proof (hktask_remove_shrinks nm st) as E.
    destruct (hktask_remove nm st) as [r st']. cbn [snd] in E.
    etransitivity; [apply IH, A | exact E].
  - apply (IH (hkshutdown st) A).
  - apply (IH (thread_millisleep (Z.of_nat ms) st) A).
Qed.

(** A function that neither registers under the name nor removes it leaves
    the entries of the name as they are. *)
Lemma run_cmd_filter (c : cmd) (st : hk) :
  never_inserts n c -> never_removes n c ->
  filter (named n) (tasks (run_cmd c st)) = filter (named n) (tasks st).
Proof.
  revert st. induction c as [|nm fn dt freq h k IH|nm fn dt when h k IH
                            |nm k IH|k IH|ms k IH]; intros st A B;
    cbn [run_cmd never_inserts never_removes] in *.
  - reflexivity.
  - destruct A as [N A].
    pose proof (hktask_add_effect nm fn dt freq h st) as E.
    destruct (hktask_add nm fn dt freq h st) as [r st']. cbn [snd] in E.
    destruct E as [-> | [_ ->]]; [now apply IH|].
    rewrite IH by auto. cbn [set_tasks tasks].
    now apply filter_named_append.
  - destruct A as [N A].
    pose proof (hktask_oneshot_effect nm fn dt when h st) as E.
    destruct (hktask_oneshot nm fn dt when h st) as [r st']. cbn [snd] in E.
    destruct E as [-> | ->]; [now apply IH|].
    rewrite IH by auto. cbn [set_tasks tasks].
    now apply filter_named_append.
  - destruct B as [N B].
    pose proof (hktask_remove_other nm st N) as E.
    destruct (hktask_remove nm st) as [r st']. cbn [snd] in E.
    rewrite IH by auto. exact E.
  - apply (IH (hkshutdown st) A B).
  - apply (IH (thread_millisleep (Z.of_nat ms) st) A B).
Qed.

(** A function that does not remove the name leaves every entry of the
    name in the list. *)
Lemma run_cmd_keeps (c : cmd) (st : hk) (x : HKTASK) :
  never_removes n c -> name x = n ->
  In x (tasks st) -> In x (tasks (run_cmd c st)).
Proof.
  intros B Nx. revert st B.
  induction c as [|nm fn dt freq h k IH|nm fn dt when h k IH
                 |nm k IH|k IH|ms k IH]; intros st B I;
    cbn [run_cmd never_removes] in *.
  - exact I.
  - pose proof (hktask_add_effect nm fn dt freq h st) as E.
    destruct (hktask_add nm fn dt freq h st) as [r st']. cbn [snd] in E.
    destruct E as [-> | [_ ->]]; [now apply IH|].
    apply IH; [apply B|]. cbn [set_tasks tasks]. apply in_or_app. now left.
  - pose proof (hktask_oneshot_effect nm fn dt when h st) as E.
    destruct (hktask_oneshot nm fn dt when h st) as [r st']. cbn [snd] in E.
    destruct E as [-> | ->]; [now apply IH|].
    apply IH; [apply B|]. cbn [set_tasks tasks]. apply in_or_app. now left.
  - destruct B as [N B].
    pose proof (hktask_remove_effect nm st) as E.
    destruct (hktask_remove nm st) as [r st']. cbn [snd] in E.
    destruct E as [[_ ->] | (l1 & e & l2 & L & _ & He & ->)]; [now apply IH|].
    apply IH; [apply B|]. cbn [set_tasks tasks]. rewrite L in I.
    apply in_app_or in I. apply in_or_app.
    destruct I as [I | [I | I]]; [now left | congruence | now right].
  - apply (IH (hkshutdown st) B I).
  - apply (IH (thread_millisleep (Z.of_nat ms) st) B I).
Qed.

End OneName.

(** ** One name through a scan *)

Section Scan.

Variable code : nat -> fnptr -> Z -> cmd.
Variable now : Z.

Lemma scan_step_ran (k : nat) (st : hk) (r : run) (st' : hk) :
  scan_step code now k st = Some (r, st') ->
  In (ran r) (tasks st) /\ due now (ran r) = true /\ relocked r = tasks st'.
Proof.
  unfold scan_step.
  destruct (scan_walk now (tasks st)) as [[e l0]|] eqn:W; [|discriminate].
  destruct (scan_walk_found now _ e l0 W) as (l1 & l2 & L & _ & De & _).
  intros H. injection H as <- <-. cbn [ran relocked]. rewrite L.
  repeat split; [|exact De]. apply in_or_app. right. now left.
Qed.


(** A run under another name whose function leaves the name alone. *)
Lemma scan_step_other (n : string) (k : nat) (st : hk) (r : run) (st' : hk) :
  scan_step code now k st = Some (r, st') ->
  name (ran r) <> n ->
  never_inserts n (code_of code r) -> never_removes n (code_of code r) ->
  filter (named n) (tasks st') = filter (named n) (tasks st).
Proof.
  unfold scan_step, code_of.
  destruct (scan_walk now (tasks st)) as [[e l0]|] eqn:W; [|discriminate].
  destruct (scan_walk_found now _ e l0 W) as (l1 & l2 & L & _ & _ & ->).
  intros H. injection H as <- <-. cbn [ran call]. intros N A B.
  assert (F : filter (named n)
                (tasks (run_cmd (code k (task e) (data e))
                   (set_tasks (l1 ++ set_nextdue (now + frequency e) e :: l2)
                      st)))
              = filter (named n) (tasks st)).
  { rewrite run_cmd_filter by assumption. cbn [set_tasks tasks]. rewrite L.
    now apply filter_named_write. }
  destruct (type e); [exact F|].
  rewrite hktask_remove_other by exact N. exact F.
Qed.

(** A run while no entry has the name. *)
Lemma scan_step_absent (n : string) (k : nat) (st : hk) (r : run) (st' : hk) :
  scan_step code now k st = Some (r, st') ->
  count_name n (tasks st) = 0%nat ->
  never_inserts n (code_of code r) ->
  name (ran r) <> n /\ count_name n (tasks st') = 0%nat.
Proof.
  intros E C A. split.
  - destruct (scan_step_ran k st r st' E) as (I & _). intros N.
    apply count_name_absent in C.
    assert (T : has_name n (tasks st) = true).
    { apply has_name_In. rewrite <- N. now apply in_map. }
    congruence.
  - revert E. unfold scan_step, code_of in *.
    destruct (scan_walk now (tasks st)) as [[e l0]|] eqn:W; [|discriminate].
    destruct (scan_walk_found now _ e l0 W) as (l1 & l2 & L & _ & _ & ->).
    intros H. injection H as Er <-. rewrite <- Er in A. cbn [ran call] in A.
    pose proof (run_cmd_count n (code k (task e) (data e))
                (set_tasks (l1 ++ set_nextdue (now + frequency e) e :: l2) st)
                A) as Le.
    cbn [set_tasks tasks] in Le. rewrite count_name_write, <- L, C in Le.
    destruct (type e); [lia|].
    pose proof (hktask_remove_shrinks n (name e)
      (run_cmd (code k (task e) (data e))
         (set_tasks (l1 ++ set_nextdue (now + frequency e) e :: l2) st))).
    lia.
Qed.

(** Once no entry has the name and no function run registers it, the rest
    of the scan makes no run under it. *)
Lemma hkscan_absent (n : string) (fuel : nat) (k : nat) (st : hk) :
  count_name n (tasks st) = 0%nat ->
  (forall r, In r (trace (hkscan code fuel now k st)) ->
             never_inserts n (code_of code r)) ->
  runs_named n (trace (hkscan code fuel now k st)) = [] /\
  count_name n (tasks (state_of (hkscan code fuel now k st))) = 0%nat.
Proof.
  revert k st. induction fuel as [|f IH]; intros k st C; cbn [hkscan];
    destruct (scan_step code now k st) as [[r st1]|] eqn:E;
    try (intros _; now split).
  rewrite trace_after, state_of_after. cbn [app]. intros A.
  destruct (scan_step_absent n k st r st1 E C (A r (or_introl eq_refl)))
    as [N C1].
  destruct (IH (S k) st1 C1) as [R C2].
  { intros r' I. apply A. now right. }
  split; [|exact C2]. unfold runs_named in *. cbn [filter].
  apply named_false in N. now rewrite N.
Qed.

(** An entry that is due stays in the list, as it is, until it is run or a
    run takes its name out of the list. *)
Lemma scan_step_keeps (x : HKTASK) (k : nat) (st : hk) (r : run) (st' : hk) :
  scan_step code now k st = Some (r, st') ->
  In x (tasks st) -> ran r <> x -> keeps code (name x) r ->
  In x (tasks st').
Proof.
  unfold scan_step, keeps, code_of.
  destruct (scan_walk now (tasks st)) as [[e l0]|] eqn:W; [|discriminate].
  destruct (scan_walk_found now _ e l0 W) as (l1 & l2 & L & _ & _ & ->).
  intros H. injection H as <- <-. cbn [ran call]. intros I N [B O].
  assert (I1 : In x (tasks (run_cmd (code k (task e) (data e))
      (set_tasks (l1 ++ set_nextdue (now + frequency e) e :: l2) st)))).
  { apply (run_cmd_keeps (name x)); [exact B | reflexivity|].
    cbn [set_tasks tasks]. rewrite L in I. apply in_app_or in I.
    apply in_or_app. destruct I as [I | [I | I]];
      [now left | congruence | right; now right]. }
  destruct (type e); [exact I1|].
  destruct (hktask_remove_effect (name e)
    (run_cmd (code k (task e) (data e))
      (set_tasks (l1 ++ set_nextdue (now + frequency e) e :: l2) st)))
    as [[_ ->] | (a & y & b & La & _ & Hy & ->)]; [exact I1|].
  cbn [set_tasks tasks]. rewrite La in I1. apply in_app_or in I1.
  apply in_or_app. destruct I1 as [I1 | [I1 | I1]]; [now left | | now right].
  subst y. exfalso. now apply (O eq_refl).
Qed.


(** The scan from the point where the driver takes the lock again after a
    run. *)
Lemma hkscan_split (fuel : nat) (k : nat) (st : hk) (tr1 : list run)
  (r : run) (tr2 : list run) :
  trace (hkscan code fuel now k st) = tr1 ++ r :: tr2 ->
  exists fuel' k' st1,
    tasks st1 = relocked r /\
    hkscan code fuel now k st
    = after (tr1 ++ [r]) (hkscan code fuel' now k' st1) /\
    trace (hkscan code fuel' now k' st1) = tr2.
Proof.
  revert fuel k st. induction tr1 as [|a tr1 IH]; intros fuel k st;
    destruct fuel as [|f]; cbn [hkscan];
    destruct (scan_step code now k st) as [[r0 st1]|] eqn:E;
    try discriminate; rewrite trace_after; cbn [app]; intros H;
    injection H as -> H.
  - exists f, (S k), st1.
    split; [symmetry; apply (scan_step_ran k st r st1 E)|].
    split; [reflexivity | exact H].
  - destruct (IH f (S k) st1 H) as (f' & k' & s & A & B & C).
    exists f', k', s. split; [exact A|]. split; [|exact C].
    rewrite B. destruct (hkscan code f' now k' s); cbn [after app];
      reflexivity.
Qed.

End Scan.

(** ** The nextdue the scan writes *)

Section Written.

Variable code : nat -> fnptr -> Z -> cmd.

(** One execution, step by step: where the walk stops, what it writes into
    the list, the state the function is called in and the state the driver
    takes the lock in again. *)
Lemma scan_step_written (now : Z) (k : nat) (st : hk) (r : run) (st' : hk) :
  scan_step code now k st = Some (r, st') ->
  exists l1 l2,
    tasks st = l1 ++ ran r :: l2 /\
    Forall (fun p => due now p = false) l1 /\
    nextdue (ran r) <= now /\
    st' = (let st1 := set_tasks
                        (l1 ++ set_nextdue (now + frequency (ran r)) (ran r)
                            :: l2) st in
           let st2 := run_cmd (code_of code r) st1 in
           match type (ran r) with
           | HK_ONESHOT => snd (hktask_remove (name (ran r)) st2)
           | HK_REPEATED => st2
           end) /\
    relocked r = tasks st' /\
    (type (ran r) = HK_REPEATED ->
     never_removes (name (ran r)) (code_of code r) ->
     In (set_nextdue (now + frequency (ran r)) (ran r)) (tasks st')).
Proof.
  unfold scan_step, code_of.
  destruct (scan_walk now (tasks st)) as [[e l0]|] eqn:W; [|discriminate].
  destruct (scan_walk_found now _ e l0 W) as (l1 & l2 & L & N & D & ->).
  intros H. injection H as <- <-. cbn [ran call relocked].
  exists l1, l2. unfold due in D. apply Z.leb_le in D.
  repeat split; try assumption.
  intros Ty B. rewrite Ty.
  apply (run_cmd_keeps (name e)); [exact B | reflexivity|].
  cbn [set_tasks tasks]. apply in_or_app. right. now left.
Qed.

(** Every repeated task run in a scan is in the list, with the clock
    reading of the scan plus its interval as its nextdue, when the driver
    takes the lock again after its run, unless its function removed its
    name. *)
Lemma hkscan_written (fuel : nat) (now : Z) (k : nat) (st : hk) :
  Forall (fun r => type (ran r) = HK_REPEATED ->
                   never_removes (name (ran r)) (code_of code r) ->
                   In (set_nextdue (now + frequency (ran r)) (ran r))
                      (relocked r))
         (trace (hkscan code fuel now k st)).
Proof.
  revert k st. induction fuel as [|f IH]; intros k st; cbn [hkscan];
    destruct (scan_step code now k st) as [[r st']|] eqn:E; try constructor.
  - rewrite trace_after. cbn [app]. constructor; [|apply IH].
    destruct (scan_step_written now k st r st' E)
      as (l1 & l2 & _ & _ & _ & _ & -> & I). exact I.
Qed.

(** An entry that is not due stays in the list, as it is, through a scan
    whose runs leave its name in the list. *)
Lemma hkscan_stays (x : HKTASK) (fuel : nat) (now : Z) (k : nat) (st : hk) :
  In x (tasks st) -> due now x = false ->
  (forall r, In r (trace (hkscan code fuel now k st)) ->
             keeps code (name x) r) ->
  In x (tasks (state_of (hkscan code fuel now k st))).
Proof.
  intros I D. revert k st I. induction fuel as [|f IH]; intros k st I;
    cbn [hkscan]; destruct (scan_step code now k st) as [[r st1]|] eqn:E;
    cbn [state_of]; try (intros _; exact I).
  rewrite trace_after, state_of_after. cbn [app]. intros K.
  apply IH; [|intros r' Ir'; apply K; now right].
  apply (scan_step_keeps code now x k st r st1 E I);
    [|apply K; now left].
  destruct (scan_step_ran code now k st r st1 E) as (_ & Dr & _). congruence.
Qed.

(** C2, as amended.  The scan stops at the first entry whose nextdue is at
    or before [now] and writes [now] plus the interval of the entry into it,
    leaving every other entry as it was; the function of the task is called
    on the list that holds the entry with that nextdue, so a repeated task
    whose function does not remove its name is in the list with that nextdue
    when the driver takes the lock again.  In a turn of the driver [now] is
    the one clock reading taken after the ten ticks, before the first task of
    the turn is run: every task run in the turn was due at that reading, got
    that reading plus its interval as its nextdue (neither its missed due
    time nor the later time at which its function was called count), and its
    function was called at or after that reading; and a repeated task with a
    positive interval is in the list with that nextdue at the end of the turn,
    unless a function run in the turn from its own run on removed its name or
    a one-shot task of its name was run after it. *)
Theorem nextdue_from_scan_clock (fuel : nat) (now : Z) (l : list HKTASK)
  (k : nat) (st : hk) :
  match scan_walk now l with
  | Some (e, l') =>
      exists l1 l2,
        l = l1 ++ e :: l2 /\ Forall (fun p => due now p = false) l1 /\
        nextdue e <= now /\
        l' = l1 ++ set_nextdue (now + frequency e) e :: l2
  | None => Forall (fun p => due now p = false) l
  end /\
  match scan_step code now k st with
  | Some (r, st') =>
      exists l1 l2,
        tasks st = l1 ++ ran r :: l2 /\
        Forall (fun p => due now p = false) l1 /\
        nextdue (ran r) <= now /\
        st' = (let st1 := set_tasks
                            (l1 ++ set_nextdue (now + frequency (ran r))
                                     (ran r) :: l2) st in
               let st2 := run_cmd (code_of code r) st1 in
               match type (ran r) with
               | HK_ONESHOT => snd (hktask_remove (name (ran r)) st2)
               | HK_REPEATED => st2
               end) /\
        relocked r = tasks st' /\
        (type (ran r) = HK_REPEATED ->
         never_removes (name (ran r)) (code_of code r) ->
         In (set_nextdue (now + frequency (ran r)) (ran r)) (tasks st'))
  | None => Forall (fun p => due now p = false) (tasks st)
  end /\
  Forall (fun r => nextdue (ran r) <= time (ticked (ticks 10 st)) /\
                   wrote r = time (ticked (ticks 10 st)) + frequency (ran r) /\
                   time (ticked (ticks 10 st)) <= at_ms r / 1000 /\
                   (type (ran r) = HK_REPEATED ->
                    never_removes (name (ran r)) (code_of code r) ->
                    In (set_nextdue (time (ticked (ticks 10 st))
                                     + frequency (ran r)) (ran r))
                       (relocked r)))
         (trace (hkcycle code fuel k st)) /\
  (forall (tr1 : list run) (r : run) (tr2 : list run),
     trace (hkcycle code fuel k st) = tr1 ++ r :: tr2 ->
     type (ran r) = HK_REPEATED -> 0 < frequency (ran r) ->
     never_removes (name (ran r)) (code_of code r) ->
     (forall r', In r' tr2 -> keeps code (name (ran r)) r') ->
     In (set_nextdue (time (ticked (ticks 10 st)) + frequency (ran r)) (ran r))
        (tasks (state_of (hkcycle code fuel k st)))).
Proof.
  split; [|split; [|split]].
  - destruct (scan_walk now l) as [[e l']|] eqn:W.
    + destruct (scan_walk_found now l e l' W) as (l1 & l2 & A & B & C & D).
      exists l1, l2. unfold due in C. apply Z.leb_le in C. now repeat split.
    + now apply scan_walk_none.
  - destruct (scan_step code now k st) as [[r st']|] eqn:E.
    + exact (scan_step_written now k st r st' E).
    + unfold scan_step in E.
      destruct (scan_walk now (tasks st)) as [[e l0]|] eqn:W; [discriminate|].
      now apply scan_walk_none.
  - unfold hkcycle. destruct (ticks 10 st) as [s|s]; cbn [ticked trace].
    + constructor.
    + pose proof (hkscan_runs code fuel (time s) k s (Z.le_refl _)) as R.
      pose proof (hkscan_written fuel (time s) k s) as Wr.
      rewrite Forall_forall in *. intros r I.
      destruct (R r I) as (A & B & C). repeat split; try assumption.
      apply (Wr r I).
  - unfold hkcycle. destruct (ticks 10 st) as [s|s]; cbn [ticked trace].
    + intros tr1 r tr2 H. now destruct tr1.
    + intros tr1 r tr2 H Ty Pos B K.
      pose proof (hkscan_written fuel (time s) k s) as Wr.
      rewrite Forall_forall in Wr.
      assert (Ir : In r (trace (hkscan code fuel (time s) k s)))
        by (rewrite H; apply in_or_app; right; now left).
      specialize (Wr r Ir Ty B).
      destruct (hkscan_split code (time s) fuel k s tr1 r tr2 H)
        as (fuel' & k' & st1 & L & P & T2).
      rewrite P, state_of_after. rewrite <- L in Wr.
      apply hkscan_stays; [exact Wr| |now rewrite T2].
      unfold due. cbn [set_nextdue nextdue]. apply Z.leb_gt. lia.
Qed.

End Written.

(** C2, as stated, fails: "b", with interval 5 and due at second 10, is run
    at second 13, after the three seconds "a" took, and its nextdue is 15,
    the clock reading of the start of the scan plus 5, not 18. *)
Lemma nextdue_not_from_execution_time :
  map (fun r => (name (ran r), type (ran r), frequency (ran r),
                 at_ms r / 1000, wrote r))
      (trace (hkcycle slow_first 5 0 two_due)) =
  [("a", HK_REPEATED, 5, 10, 15); ("b", HK_REPEATED, 5, 13, 15)] /\
  map nextdue (tasks (state_of (hkcycle slow_first 5 0 two_due))) = [15; 15].
Proof. split; reflexivity. Qed.

(** ** The end of a scan *)

Lemma hkscan_more_fuel (code : nat -> fnptr -> Z -> cmd) (now : Z) (n m : nat)
  (k : nat) (st : hk) (tr : list run) (st' : hk) :
  hkscan code n now k st = Running tr st' -> (n <= m)%nat ->
  hkscan code m now k st = Running tr st'.
Proof.
  revert m k st tr. induction n as [|n IH]; intros m k st tr; cbn [hkscan];
    destruct (scan_step code now k st) as [[r st1]|] eqn:E; try discriminate;
    intros H L.
  - destruct m; cbn [hkscan]; now rewrite E.
  - destruct m as [|m]; [lia|]. cbn [hkscan]. rewrite E.
    destruct (hkscan code n now (S k) st1) as [t s|t s|t s] eqn:P;
      cbn [after] in H; try discriminate.
    injection H as <- <-. rewrite (IH m (S k) st1 t P) by lia. reflexivity.
  - destruct m; cbn [hkscan]; now rewrite E.
Qed.

(** C3, as amended.  When every repeated entry that is due has a positive
    interval, and every registration a task function makes asks for a
    positive interval or delay, the scan of a turn ends, whatever else the
    task functions do (remove tasks, register names twice, use up time): the
    number of executions is at most [pending], and the scan is left with no
    entry due at the clock reading it was started with. *)
Theorem scan_ends (code : nat -> fnptr -> Z -> cmd) (now : Z) (fuel k : nat)
  (st : hk) :
  (forall (i : nat) (fn : fnptr) (dt : Z), inserts_ahead (code i fn dt)) ->
  calm now (tasks st) ->
  now <= time st ->
  (pending now (tasks st) <= fuel)%nat ->
  exists tr st',
    hkscan code fuel now k st = Running tr st' /\
    (List.length tr <= pending now (tasks st))%nat /\
    Forall (fun p => due now p = false) (tasks st').
Proof.
  intros A C T F.
  destruct (hkscan_ends_within now code A (pending now (tasks st)) k st
              (Nat.le_refl _) C T) as (tr & st' & H & L & N).
  exists tr, st'. split; [|split; assumption].
  now apply hkscan_more_fuel with (n := pending now (tasks st)).
Qed.

Lemma scan_ends_witness :
  ((forall (i : nat) (fn : fnptr) (dt : Z), inserts_ahead (idle i fn dt)) /\
   calm 10 (tasks a_due) /\ 10 <= time a_due /\
   (pending 10 (tasks a_due) <= 1)%nat) /\
  exists tr st',
    hkscan idle 1 10 0 a_due = Running tr st' /\
    (List.length tr <= pending 10 (tasks a_due))%nat /\
    Forall (fun p => due 10 p = false) (tasks st').
Proof.
  assert (A : forall (i : nat) (fn : fnptr) (dt : Z),
             inserts_ahead (idle i fn dt)) by (intros; exact I).
  assert (C : calm 10 (tasks a_due))
    by (repeat constructor; cbn; intros; reflexivity).
  assert (T : 10 <= time a_due) by (vm_compute; discriminate).
  assert (F : (pending 10 (tasks a_due) <= 1)%nat) by (vm_compute; lia).
  split; [repeat split; assumption|].
  exact (scan_ends idle 10 1 0 a_due A C T F).
Defined.

Lemma zero_interval_spins (fuel k : nat) :
  exists tr, hkscan idle fuel 10 k zero_interval = Spinning tr zero_interval.
Proof.
  revert k. induction fuel as [|f IH]; intros k.
  - now exists [].
  - cbn [hkscan]. destruct (IH (S k)) as [tr E].
    change (scan_step idle 10 k zero_interval)
      with (Some ({| call := k; ran := task_t; wrote := 10;
                     at_ms := 10000; relocked := tasks zero_interval |},
                  zero_interval)).
    cbn iota. rewrite E. cbn [after]. now eexists.
Qed.

(** C3, as stated, fails: with a repeated task of interval 0 that is due,
    and a task function that does nothing, no budget of executions lets the
    scan end: the entry is given [now + 0] and is due again at once. *)
Lemma scan_of_zero_interval_never_ends :
  hktask_add "t" 1 0 0 HeapOk (set_tasks [] zero_interval)
  = (10, zero_interval) /\
  ~ (exists fuel tr st',
       hkscan idle fuel 10 0 zero_interval = Running tr st').
Proof.
  split; [reflexivity|]. intros (fuel & tr & st' & H).
  destruct (zero_interval_spins fuel 0) as [t S]. congruence.
Qed.

(** ** The entries of one name, in list order *)





Section Turn.

Variable code : nat -> fnptr -> Z -> cmd.
Variable now : Z.


End Turn.

(** ** One-shot tasks *)



Section Reach.

Variable code : nat -> fnptr -> Z -> cmd.
Variable now : Z.
Variable e : HKTASK.


Hypothesis e_due : due now e = true.




Hypothesis e_oneshot : type e = HK_ONESHOT.



End Reach.




(** ** Tasks registered during a scan *)




(** ** Unique names *)

Lemma set_tasks_same (st : hk) : set_tasks (tasks st) st = st.
Proof. now destruct st. Qed.

Lemma has_name_names (nm : string) (l : list HKTASK) :
  has_name nm l = false <-> ~ In nm (map name l).
Proof.
  rewrite <- has_name_In. destruct (has_name nm l); split; intros H;
    congruence || (exfalso; now apply H) || discriminate.
Qed.

Lemma names_unlink (l1 l2 : list HKTASK) (e : HKTASK) :
  NoDup (map name (l1 ++ e :: l2)) -> NoDup (map name (l1 ++ l2)).
Proof.
  rewrite !map_app. cbn [map]. apply NoDup_remove_1.
Qed.

Lemma names_write (l1 l2 : list HKTASK) (e : HKTASK) (d : Z) :
  map name (l1 ++ set_nextdue d e :: l2) = map name (l1 ++ e :: l2).
Proof. now rewrite !map_app. Qed.

Lemma names_append (l : list HKTASK) (t : HKTASK) :
  NoDup (map name (l ++ [t])) <->
  NoDup (map name l) /\ has_name (name t) l = false.
Proof.
  rewrite map_app. cbn [map]. rewrite has_name_names. split.
  - intros H. split.
    + apply NoDup_remove_1 in H. now rewrite app_nil_r in H.
    + apply NoDup_remove_2 in H. now rewrite app_nil_r in H.
  - intros [H N]. apply NoDup_Add with (a := name t) (l := map name l);
      [|split; assumption].
    rewrite <- (app_nil_r (map name l)) at 1. apply Add_app.
Qed.

(** A function that never calls [hktask_oneshot] keeps the names of the
    list apart. *)
Lemma run_cmd_unique (c : cmd) (st : hk) :
  never_oneshot c -> NoDup (map name (tasks st)) ->
  NoDup (map name (tasks (run_cmd c st))).
Proof.
  revert st. induction c as [|nm fn dt freq h k IH|nm fn dt when h k IH
                            |nm k IH|k IH|ms k IH]; intros st A U;
    cbn [run_cmd never_oneshot] in *.
  - exact U.
  - pose proof (hktask_add_effect nm fn dt freq h st) as E.
    destruct (hktask_add nm fn dt freq h st) as [r st']. cbn [snd] in E.
    destruct E as [-> | [F ->]]; [now apply IH|].
    apply IH; [apply A|]. cbn [set_tasks tasks]. apply names_append.
    split; [exact U | exact F].
  - contradiction.
  - pose proof (hktask_remove_effect nm st) as E.
    destruct (hktask_remove nm st) as [r st']. cbn [snd] in E.
    destruct E as [[_ ->] | (l1 & e & l2 & L & _ & _ & ->)]; [now apply IH|].
    apply IH; [apply A|]. cbn [set_tasks tasks]. rewrite L in U.
    now apply names_unlink in U.
  - apply (IH (hkshutdown st) A U).
  - apply (IH (thread_millisleep (Z.of_nat ms) st) A U).
Qed.

Lemma scan_step_unique (code : nat -> fnptr -> Z -> cmd) (now : Z) (k : nat)
  (st : hk) (r : run) (st' : hk) :
  never_oneshot (code k (task (ran r)) (data (ran r))) ->
  scan_step code now k st = Some (r, st') ->
  NoDup (map name (tasks st)) -> NoDup (map name (tasks st')).
Proof.
  unfold scan_step.
  destruct (scan_walk now (tasks st)) as [[e l0]|] eqn:W; [|discriminate].
  destruct (scan_walk_found now _ e l0 W) as (l1 & l2 & L & _ & _ & ->).
  intros A H U. injection H as <- <-. cbn [ran] in A.
  assert (U1 : NoDup (map name (tasks (run_cmd (code k (task e) (data e))
     (set_tasks (l1 ++ set_nextdue (now + frequency e) e :: l2) st))))).
  { apply run_cmd_unique; [exact A|]. cbn [set_tasks tasks].
    rewrite names_write, <- L. exact U. }
  destruct (type e); [exact U1|].
  destruct (hktask_remove_effect (name e)
    (run_cmd (code k (task e) (data e))
      (set_tasks (l1 ++ set_nextdue (now + frequency e) e :: l2) st)))
    as [[_ ->] | (a & y & b & La & _ & _ & ->)]; [exact U1|].
  cbn [set_tasks tasks]. rewrite La in U1. now apply names_unlink in U1.
Qed.

Lemma hkscan_unique (code : nat -> fnptr -> Z -> cmd) (now : Z) (fuel k : nat)
  (st : hk) :
  (forall i fn dt, never_oneshot (code i fn dt)) ->
  NoDup (map name (tasks st)) ->
  NoDup (map name (tasks (state_of (hkscan code fuel now k st)))).
Proof.
  intros A. revert k st. induction fuel as [|f IH]; intros k st U;
    cbn [hkscan]; destruct (scan_step code now k st) as [[r st1]|] eqn:E;
    try exact U.
  rewrite state_of_after. apply IH.
  apply (scan_step_unique code now k st r st1 (A _ _ _) E U).
Qed.

Lemma ticks_tasks (i : nat) (st : hk) : tasks (ticked (ticks i st)) = tasks st.
Proof.
  revert st. induction i as [|i IH]; intros st; cbn [ticks]; [reflexivity|].
  destruct (do_shutdown st); [reflexivity|]. now rewrite IH.
Qed.

(** X1.  The names of the list stay pairwise different under [hktask_add],
    under [hktask_remove] and under the driver, with task functions that
    register by [hktask_add] only; [hktask_oneshot] keeps them different
    exactly when no entry has the name it is given. *)
Theorem names_stay_unique (code : nat -> fnptr -> Z -> cmd)
  (turns fuel k : nat) (nm : string) (fn : fnptr) (dt x : Z) (h : heap)
  (st : hk) :
  NoDup (map name (tasks st)) ->
  NoDup (map name (tasks (snd (hktask_add nm fn dt x h st)))) /\
  NoDup (map name (tasks (snd (hktask_remove nm st)))) /\
  (NoDup (map name (tasks (snd (hktask_oneshot nm fn dt x HeapOk st)))) <->
   has_name nm (tasks st) = false) /\
  ((forall i f d, never_oneshot (code i f d)) ->
   NoDup (map name (tasks (state_of (hkthread code turns fuel k st))))).
Proof.
  intros U. split; [|split; [|split]].
  - destruct (hktask_add_effect nm fn dt x h st) as [-> | [F ->]];
      [exact U|].
    cbn [set_tasks tasks]. apply names_append. now split.
  - destruct (hktask_remove_effect nm st)
      as [[_ ->] | (l1 & e & l2 & L & _ & _ & ->)]; [exact U|].
    cbn [set_tasks tasks]. rewrite L in U. now apply names_unlink in U.
  - rewrite hktask_oneshot_ok. cbn [snd set_tasks tasks].
    rewrite names_append. cbn [oneshot_task name]. tauto.
  - intros A. revert k st U. induction turns as [|n IH]; intros k st U;
      cbn [hkthread]; [exact U|].
    unfold hkcycle.
    pose proof (ticks_tasks 10 st) as T.
    destruct (ticks 10 st) as [s|s]; cbn [ticked] in T;
      [cbn [state_of]; now rewrite T|].
    assert (Us : NoDup (map name (tasks s))) by now rewrite T.
    pose proof (hkscan_unique code (time s) fuel k s A Us) as V.
    destruct (hkscan code fuel (time s) k s) as [tr s'|tr s'|tr s'];
      cbn [state_of] in V |- *; try exact V.
    rewrite state_of_after. now apply IH.
Qed.

Lemma names_stay_unique_witness :
  NoDup (map name (tasks two_due)) /\
  NoDup (map name (tasks (snd (hktask_add "c" 3 0 5 HeapOk two_due)))) /\
  NoDup (map name (tasks (snd (hktask_remove "a" two_due)))).
Proof.
  assert (U : NoDup (map name (tasks two_due))).
  { cbn. repeat constructor; cbn; intuition discriminate. }
  split; [exact U|].
  destruct (names_stay_unique idle 1 5 0 "c" 3 0 5 HeapOk two_due U)
    as (A & _).
  destruct (names_stay_unique idle 1 5 0 "a" 3 0 5 HeapOk two_due U)
    as (_ & B & _).
  now split.
Defined.

(** ** Registration and removal together *)

Lemma app_one_differs (l : list HKTASK) (t : HKTASK) : l ++ [t] <> l.
Proof.
  intros H. apply (f_equal (@List.length HKTASK)) in H.
  rewrite length_app in H. cbn in H. lia.
Qed.

(** X2.  A removal right after a registration under a name no entry had
    gives the housekeeper back as it was, for both kinds of registration.
    After [hktask_oneshot] under a name some entry has, the removal takes
    the oldest entry of the name and the task just registered stays. *)
Theorem register_then_remove (nm : string) (fn : fnptr) (dt x : Z) (st : hk) :
  (has_name nm (tasks st) = false ->
   hktask_remove nm (snd (hktask_add nm fn dt x HeapOk st)) = (1, st) /\
   hktask_remove nm (snd (hktask_oneshot nm fn dt x HeapOk st)) = (1, st)) /\
  (has_name nm (tasks st) = true ->
   hktask_remove nm (snd (hktask_oneshot nm fn dt x HeapOk st)) =
   (1, set_tasks (tasks (snd (hktask_remove nm st))
                  ++ [oneshot_task nm fn dt x st]) st)).
Proof.
  assert (E : forall t, name t = nm ->
            remove_walk nm (tasks st ++ [t]) =
            match remove_walk nm (tasks st) with
            | Some r => Some (r ++ [t])
            | None => Some (tasks st)
            end).
  { intros t N. rewrite remove_walk_app. cbn [remove_walk].
    apply String.eqb_eq in N. rewrite N, app_nil_r. reflexivity. }
  split; intros H.
  - rewrite hktask_add_ok, H, hktask_oneshot_ok. cbn [snd].
    unfold hktask_remove. cbn [set_tasks tasks].
    rewrite !E by reflexivity. rewrite (remove_walk_absent nm _ H).
    split; f_equal; now destruct st.
  - rewrite hktask_oneshot_ok. cbn [snd]. unfold hktask_remove.
    cbn [set_tasks tasks]. rewrite E by reflexivity.
    destruct (remove_walk_has nm _ H) as (r & R). rewrite R. reflexivity.
Qed.

Lemma register_then_remove_witness :
  (has_name "ping" (tasks bootstrap_only) = false /\
   hktask_remove "ping" (snd (hktask_add "ping" 2 0 5 HeapOk bootstrap_only))
   = (1, bootstrap_only)) /\
  (has_name "bootstrap" (tasks bootstrap_only) = true /\
   hktask_remove "bootstrap"
     (snd (hktask_oneshot "bootstrap" 2 0 5 HeapOk bootstrap_only)) =
   (1, set_tasks (tasks (snd (hktask_remove "bootstrap" bootstrap_only))
                  ++ [oneshot_task "bootstrap" 2 0 5 bootstrap_only])
         bootstrap_only)).
Proof.
  split; (split; [reflexivity|]).
  - apply (proj1 (register_then_remove "ping" 2 0 5 bootstrap_only)).
    reflexivity.
  - apply (proj2 (register_then_remove "bootstrap" 2 0 5 bootstrap_only)).
    reflexivity.
Defined.

(** X3.  Once a repeated task is registered, its entry stays in the list
    as it was registered and every further [hktask_add] under its name
    returns 0 and changes nothing, whatever its arguments and whatever the
    heap answers, through all calls on the housekeeper that do not remove the
    name. *)
Theorem registered_name_is_refused (nm : string) (fn fn' : fnptr)
  (dt x dt' x' : Z) (h : heap) (c : cmd) (st : hk) :
  has_name nm (tasks st) = false ->
  never_removes nm c ->
  In (repeated_task nm fn dt x st)
     (tasks (run_cmd c (snd (hktask_add nm fn dt x HeapOk st)))) /\
  hktask_add nm fn' dt' x' h
    (run_cmd c (snd (hktask_add nm fn dt x HeapOk st)))
  = (0, run_cmd c (snd (hktask_add nm fn dt x HeapOk st))).
Proof.
  intros F N. rewrite hktask_add_ok, F. cbn [snd].
  set (st1 := set_tasks (tasks st ++ [repeated_task nm fn dt x st]) st).
  assert (I : In (repeated_task nm fn dt x st) (tasks (run_cmd c st1))).
  { apply (run_cmd_keeps nm c st1 (repeated_task nm fn dt x st) N eq_refl).
    unfold st1.
    cbn [set_tasks tasks]. apply in_or_app. right. now left. }
  split; [exact I|]. destruct h; try reflexivity.
  rewrite hktask_add_ok.
  assert (T : has_name nm (tasks (run_cmd c st1)) = true).
  { apply has_name_In. change nm with (name (repeated_task nm fn dt x st)).
    now apply in_map. }
  now rewrite T.
Qed.

Lemma registered_name_is_refused_witness :
  (has_name "ping" (tasks bootstrap_only) = false /\
   never_removes "ping" (Remove "bootstrap" (fun _ => Spend 2000 Ret))) /\
  hktask_add "ping" 7 1 60 HeapOk
    (run_cmd (Remove "bootstrap" (fun _ => Spend 2000 Ret))
       (snd (hktask_add "ping" 2 0 5 HeapOk bootstrap_only)))
  = (0, run_cmd (Remove "bootstrap" (fun _ => Spend 2000 Ret))
          (snd (hktask_add "ping" 2 0 5 HeapOk bootstrap_only))).
Proof.
  assert (N : never_removes "ping" (Remove "bootstrap" (fun _ => Spend 2000 Ret))).
  { cbn. split; [discriminate | intros _; exact I]. }
  split; [split; [reflexivity | exact N]|].
  apply (registered_name_is_refused "ping" 2 7 0 5 1 60 HeapOk
           (Remove "bootstrap" (fun _ => Spend 2000 Ret)) bootstrap_only
           eq_refl N).
Defined.

(** X4.  When the due time asked for, the clock reading plus the interval
    or delay, is positive and fits an [int], the value a registration call
    returns tells whether the task was registered: it is 0 exactly when the
    housekeeper is left as it was, and otherwise it is the due time of the
    entry the call linked behind the list. *)
Theorem zero_means_not_registered (nm : string) (fn : fnptr) (dt x : Z)
  (h : heap) (st : hk) :
  0 < time st + x <= 2147483647 ->
  (fst (hktask_add nm fn dt x h st) = 0 <->
   snd (hktask_add nm fn dt x h st) = st) /\
  (fst (hktask_add nm fn dt x h st) <> 0 ->
   fst (hktask_add nm fn dt x h st) = time st + x /\
   tasks (snd (hktask_add nm fn dt x h st))
   = tasks st ++ [repeated_task nm fn dt x st]) /\
  (fst (hktask_oneshot nm fn dt x h st) = 0 <->
   snd (hktask_oneshot nm fn dt x h st) = st) /\
  (fst (hktask_oneshot nm fn dt x h st) <> 0 ->
   fst (hktask_oneshot nm fn dt x h st) = time st + x /\
   tasks (snd (hktask_oneshot nm fn dt x h st))
   = tasks st ++ [oneshot_task nm fn dt x st]).
Proof.
  intros R.
  assert (V : to_int (time st + x) = time st + x)
    by (apply to_int_id; unfold int_range; lia).
  assert (D : forall t, set_tasks (tasks st ++ [t]) st <> st).
  { intros t H. apply (f_equal tasks) in H. cbn [set_tasks tasks] in H.
    now apply app_one_differs in H. }
  split; [|split; [|split]].
  - destruct h; try (cbn; tauto). rewrite hktask_add_ok.
    destruct (has_name nm (tasks st)); cbn [fst snd]; [tauto|].
    rewrite V. split; [lia | intros H; now apply D in H].
  - destruct h; try (cbn; tauto). rewrite hktask_add_ok.
    destruct (has_name nm (tasks st)); cbn [fst snd]; [tauto|].
    rewrite V. intros _. now split.
  - destruct h; try (cbn; tauto). rewrite hktask_oneshot_ok. cbn [fst snd].
    rewrite V. split; [lia | intros H; now apply D in H].
  - destruct h; try (cbn; tauto). rewrite hktask_oneshot_ok. cbn [fst snd].
    rewrite V. intros _. now split.
Qed.

Lemma zero_means_not_registered_witness :
  0 < time bootstrap_only + 5 <= 2147483647 /\
  (fst (hktask_add "bootstrap" 2 0 5 HeapOk bootstrap_only) = 0 <->
   snd (hktask_add "bootstrap" 2 0 5 HeapOk bootstrap_only) = bootstrap_only).
Proof.
  assert (R : 0 < time bootstrap_only + 5 <= 2147483647)
    by (vm_compute; split; [reflexivity | discriminate]).
  split; [exact R|].
  apply (zero_means_not_registered "bootstrap" 2 0 5 HeapOk bootstrap_only R).
Defined.

(** ** A scan with task functions that leave the list alone *)

Lemma run_cmd_quiet (c : cmd) (st : hk) :
  quiet c -> tasks (run_cmd c st) = tasks st.
Proof.
  revert st. induction c as [|nm fn dt freq h k IH|nm fn dt when h k IH
                            |nm k IH|k IH|ms k IH]; intros st Q;
    cbn [run_cmd quiet] in *; try contradiction.
  - reflexivity.
  - now rewrite IH.
  - now rewrite IH.
Qed.

(** X5.  A scan that ends leaves no entry due at the clock reading it was
    started with, whatever the task functions did; and it ends without a
    single execution, the housekeeper untouched, exactly when no entry is
    due at the start. *)
Theorem scan_leaves_nothing_due (code : nat -> fnptr -> Z -> cmd)
  (fuel : nat) (now : Z) (k : nat) (st : hk) :
  match hkscan code fuel now k st with
  | Running _ st' => Forall (fun p => due now p = false) (tasks st')
  | _ => True
  end /\
  (Forall (fun p => due now p = false) (tasks st) <->
   hkscan code fuel now k st = Running [] st).
Proof.
  assert (N : forall s, scan_step code now k s = None <->
                        Forall (fun p => due now p = false) (tasks s)).
  { intros s. unfold scan_step. rewrite <- scan_walk_none.
    destruct (scan_walk now (tasks s)) as [[e l]|]; split;
      intros H; discriminate || reflexivity. }
  split.
  - revert k st N. induction fuel as [|f IH]; intros k st N; cbn [hkscan];
      destruct (scan_step code now k st) as [[r st1]|] eqn:E; try exact I.
    + now apply N.
    + assert (N1 : forall s, scan_step code now (S k) s = None <->
                             Forall (fun p => due now p = false) (tasks s)).
      { intros s. unfold scan_step. rewrite <- scan_walk_none.
        destruct (scan_walk now (tasks s)) as [[e l]|]; split;
          intros H; discriminate || reflexivity. }
      specialize (IH (S k) st1 N1).
      destruct (hkscan code f now (S k) st1); cbn [after]; exact IH.
    + now apply N.
  - rewrite <- N. destruct fuel as [|f]; cbn [hkscan];
      destruct (scan_step code now k st) as [[r st1]|]; split;
      intros H; try discriminate; try reflexivity.
    destruct (hkscan code f now (S k) st1); cbn [after] in H; discriminate.
Qed.

Section Sweep.

Variable code : nat -> fnptr -> Z -> cmd.
Variable now : Z.
Hypothesis hands_off : forall (i : nat) (fn : fnptr) (dt : Z),
  quiet (code i fn dt).

(** The execution of the first due entry, behind entries that are not due
    and do not have its name. *)
Lemma scan_step_quiet (k : nat) (st : hk) (pre : list HKTASK) (p : HKTASK)
  (rest : list HKTASK) :
  tasks st = pre ++ p :: rest ->
  Forall (fun q => due now q = false) pre ->
  due now p = true -> has_name (name p) pre = false ->
  exists r st',
    scan_step code now k st = Some (r, st') /\ ran r = p /\
    tasks st' = pre ++ match type p with
                       | HK_ONESHOT => rest
                       | HK_REPEATED =>
                           set_nextdue (now + frequency p) p :: rest
                       end.
Proof.
  intros L F D A. unfold scan_step. rewrite L, (scan_walk_app now pre _ F).
  cbn [scan_walk]. rewrite D. eexists. eexists.
  split; [reflexivity|]. split; [reflexivity|].
  set (st2 := run_cmd _ _).
  assert (T : tasks st2
              = pre ++ set_nextdue (now + frequency p) p :: rest).
  { unfold st2. now rewrite run_cmd_quiet by apply hands_off. }
  destruct (type p); [exact T|].
  unfold hktask_remove. rewrite T, remove_walk_app.
  rewrite (remove_walk_absent _ _ A). cbn [remove_walk set_nextdue name].
  now rewrite String.eqb_refl.
Qed.

Lemma sweep_from (l : list HKTASK) :
  forall (pre : list HKTASK) (k : nat) (st : hk),
    tasks st = pre ++ l ->
    Forall (fun q => due now q = false) pre ->
    calm now l -> NoDup (map name (pre ++ l)) ->
    exists tr st',
      hkscan code (List.length (filter (due now) l)) now k st
      = Running tr st' /\
      map ran tr = filter (due now) l /\
      tasks st' = pre ++ swept now l.
Proof.
  induction l as [|p rest IH]; intros pre k st L F C U.
  - exists [], st. cbn [filter List.length hkscan swept].
    assert (N : scan_step code now k st = None).
    { unfold scan_step. rewrite L, app_nil_r.
      now rewrite (proj2 (scan_walk_none now pre) F). }
    rewrite N. now repeat split.
  - inversion C as [|? ? Cp Cr]; subst. cbn [filter swept].
    destruct (due now p) eqn:D.
    + assert (A : has_name (name p) pre = false).
      { apply has_name_names. rewrite map_app in U. cbn [map] in U.
        apply NoDup_remove_2 in U. intros I. apply U. apply in_or_app.
        now left. }
      destruct (scan_step_quiet k st pre p rest L F D A)
        as (r & st1 & E & Er & T1).
      cbn [List.length hkscan]. rewrite E.
      destruct (type p) eqn:Ty.
      * (* repeated: it has its next due time and is passed over *)
        assert (D' : due now (set_nextdue (now + frequency p) p) = false).
        { unfold due. cbn. apply Z.leb_gt.
          assert (0 < frequency p); [|lia].
          apply Cp; [reflexivity|]. unfold is_repeated. now rewrite Ty. }
        destruct (IH (pre ++ [set_nextdue (now + frequency p) p]) (S k) st1)
          as (tr & st' & H & M & T).
        { now rewrite <- app_assoc. }
        { apply Forall_app. split; [exact F | now constructor]. }
        { exact Cr. }
        { rewrite <- app_assoc. cbn [app]. rewrite names_write. exact U. }
        exists (r :: tr), st'. rewrite H. cbn [after app map].
        rewrite Er, M, T, <- app_assoc. now repeat split.
      * (* one-shot: it is gone *)
        destruct (IH pre (S k) st1 T1 F Cr (names_unlink _ _ _ U))
          as (tr & st' & H & M & T).
        exists (r :: tr), st'. rewrite H. cbn [after app map].
        rewrite Er, M, T. now repeat split.
    + destruct (IH (pre ++ [p]) k st) as (tr & st' & H & M & T).
      { now rewrite <- app_assoc. }
      { apply Forall_app. split; [exact F | now constructor]. }
      { exact Cr. }
      { now rewrite <- app_assoc. }
      exists tr, st'. rewrite T, <- app_assoc. now repeat split.
Qed.

End Sweep.

(** X6.  When the task functions make no call on the task list, the names
    in the list are pairwise different and every repeated entry that is due
    has a positive interval, one scan is one sweep of the list: it runs the
    due entries, each once, in list order, and it ends with the due one-shot
    entries gone, the due repeated entries at [now] plus their interval, and
    every other entry as it was and where it was. *)
Theorem quiet_scan_sweeps (code : nat -> fnptr -> Z -> cmd) (now : Z)
  (fuel k : nat) (st : hk) :
  (forall (i : nat) (fn : fnptr) (dt : Z), quiet (code i fn dt)) ->
  calm now (tasks st) ->
  NoDup (map name (tasks st)) ->
  (List.length (filter (due now) (tasks st)) <= fuel)%nat ->
  exists tr st',
    hkscan code fuel now k st = Running tr st' /\
    map ran tr = filter (due now) (tasks st) /\
    tasks st' = swept now (tasks st).
Proof.
  intros Q C U F.
  destruct (sweep_from code now Q (tasks st) [] k st eq_refl
              (Forall_nil _) C U) as (tr & st' & H & M & T).
  exists tr, st'. split; [|split; assumption].
  now apply hkscan_more_fuel
    with (n := List.length (filter (due now) (tasks st))).
Qed.

Lemma quiet_scan_sweeps_witness :
  ((forall (i : nat) (fn : fnptr) (dt : Z), quiet (slow_first i fn dt)) /\
   calm 10 (tasks two_due) /\ NoDup (map name (tasks two_due)) /\
   (List.length (filter (due 10) (tasks two_due)) <= 2)%nat) /\
  exists tr st',
    hkscan slow_first 2 10 0 two_due = Running tr st' /\
    map ran tr = filter (due 10) (tasks two_due) /\
    tasks st' = swept 10 (tasks two_due).
Proof.
  assert (Q : forall (i : nat) (fn : fnptr) (dt : Z),
             quiet (slow_first i fn dt)).
  { intros i fn dt. unfold slow_first.
    destruct fn as [|[q|q|]|]; exact I. }
  assert (C : calm 10 (tasks two_due))
    by (repeat constructor; cbn; intros; reflexivity).
  assert (U : NoDup (map name (tasks two_due))).
  { cbn. repeat constructor; cbn; intuition discriminate. }
  assert (F : (List.length (filter (due 10) (tasks two_due)) <= 2)%nat)
    by (vm_compute; lia).
  split; [repeat split; assumption|].
  exact (quiet_scan_sweeps slow_first 10 2 0 two_due Q C U F).
Defined.

(** ** Shutdown *)


Lemma hkshutdown_set (st : hk) : do_shutdown st = true -> hkshutdown st = st.
Proof. destruct st. cbn. now intros ->. Qed.









(** ** The clock through a scan *)


(** ** Tasks that are not in the list *)

Lemma runs_named_app (n : string) (tr1 tr2 : list run) :
  runs_named n (tr1 ++ tr2) = runs_named n tr1 ++ runs_named n tr2.
Proof. unfold runs_named. apply filter_app. Qed.

(** X9.  After [hktask_remove] has taken the only entry of a name, the
    driver makes no run under that name and no entry of the name comes back,
    turn after turn, as long as no task function that is run registers the
    name again. *)
Theorem removed_task_is_not_run (code : nat -> fnptr -> Z -> cmd)
  (turns fuel k : nat) (n : string) (st : hk) :
  (count_name n (tasks st) <= 1)%nat ->
  (forall r,
     In r (trace (hkthread code turns fuel k (snd (hktask_remove n st)))) ->
     never_inserts n (code_of code r)) ->
  runs_named n (trace (hkthread code turns fuel k (snd (hktask_remove n st))))
  = [] /\
  has_name n
    (tasks (state_of (hkthread code turns fuel k (snd (hktask_remove n st)))))
  = false.
Proof.
  intros C.
  assert (Z0 : count_name n (tasks (snd (hktask_remove n st))) = 0%nat)
    by (rewrite hktask_remove_count; lia).
  revert Z0. generalize (snd (hktask_remove n st)). clear C st.
  intros st Z0 A.
  cut (runs_named n (trace (hkthread code turns fuel k st)) = [] /\
       count_name n (tasks (state_of (hkthread code turns fuel k st))) = 0%nat).
  { intros [R Q]. split; [exact R | now apply count_name_absent]. }
  revert k st Z0 A. induction turns as [|t IH]; intros k st Z0 A;
    cbn [hkthread] in *; [now split|].
  unfold hkcycle in *. pose proof (ticks_tasks 10 st) as T.
  destruct (ticks 10 st) as [s|s]; cbn [ticked] in T.
  - cbn [trace state_of]. rewrite T. now split.
  - assert (Zs : count_name n (tasks s) = 0%nat) by now rewrite T.
    pose proof (hkscan_absent code (time s) n fuel k s Zs) as H.
    destruct (hkscan code fuel (time s) k s) as [tr s'|tr s'|tr s'];
      cbn [trace state_of] in *; try (now apply H).
    rewrite trace_after, state_of_after in *.
    destruct H as [R Q].
    { intros r I. apply A. apply in_or_app. now left. }
    destruct (IH (k + List.length tr)%nat s' Q) as [R' Q'].
    { intros r I. apply A. apply in_or_app. now right. }
    split; [|exact Q']. now rewrite runs_named_app, R, R'.
Qed.

Lemma removed_task_is_not_run_witness :
  (count_name "a" (tasks two_due) <= 1)%nat /\
  runs_named "a"
    (trace (hkthread idle 3 5 0 (snd (hktask_remove "a" two_due)))) = [] /\
  has_name "a"
    (tasks (state_of (hkthread idle 3 5 0 (snd (hktask_remove "a" two_due)))))
  = false.
Proof.
  assert (C : (count_name "a" (tasks two_due) <= 1)%nat)
    by (vm_compute; lia).
  split; [exact C|].
  apply (removed_task_is_not_run idle 3 5 0 "a" two_due C).
  intros r _. exact I.
Defined.

(** ** The thread with task functions that only use up time *)









Lemma filter_length_le (f : HKTASK -> bool) (l : list HKTASK) :
  (List.length (filter f l) <= List.length l)%nat.
Proof.
  induction l as [|p rest IH]; cbn [filter List.length]; [lia|].
  destruct (f p); cbn [List.length]; lia.
Qed.



(** ** From the registration to the first run *)

Lemma swept_app (now : Z) (l1 l2 : list HKTASK) :
  swept now (l1 ++ l2) = swept now l1 ++ swept now l2.
Proof.
  induction l1 as [|p rest IH]; cbn [app swept]; [reflexivity|].
  rewrite IH. destruct (due now p); [destruct (type p)|]; reflexivity.
Qed.

Lemma fresh_not_in (l : list HKTASK) (t : HKTASK) (f : HKTASK -> bool) :
  has_name (name t) l = false -> ~ In t (filter f l).
Proof.
  intros H I. apply filter_In in I. destruct I as [I _].
  apply has_name_names in H. apply H. now apply in_map.
Qed.

(** The scan of a list with one entry of a fresh name linked behind it. *)
Lemma scan_after_registration (code : nat -> fnptr -> Z -> cmd) (now : Z)
  (fuel k : nat) (st : hk) (t : HKTASK) :
  (forall (i : nat) (fn : fnptr) (dt : Z), quiet (code i fn dt)) ->
  has_name (name t) (tasks st) = false ->
  calm now (tasks st ++ [t]) ->
  NoDup (map name (tasks st)) ->
  (List.length (tasks st) < fuel)%nat ->
  exists tr st',
    hkscan code fuel now k (set_tasks (tasks st ++ [t]) st) = Running tr st' /\
    (In t (map ran tr) <-> due now t = true) /\
    tasks st' = swept now (tasks st) ++ swept now [t].
Proof.
  intros Q F C U L.
  destruct (sweep_from code now Q (tasks st ++ [t]) []
              k (set_tasks (tasks st ++ [t]) st) eq_refl (Forall_nil _) C)
    as (tr & st' & H & M & T).
  { cbn [app]. apply names_append. now split. }
  exists tr, st'. split; [|split].
  - apply hkscan_more_fuel
      with (n := List.length (filter (due now) (tasks st ++ [t])));
      [exact H|].
    pose proof (filter_length_le (due now) (tasks st ++ [t])) as Le.
    rewrite length_app in Le. cbn [List.length] in Le. lia.
  - rewrite M, filter_app. cbn [filter]. split.
    + intros I. apply in_app_or in I. destruct I as [I|I].
      * exfalso. now apply (fresh_not_in _ _ _ F I).
      * destruct (due now t); [reflexivity | contradiction].
    + intros D. apply in_or_app. right. rewrite D. now left.
  - cbn [app] in T. now rewrite T, swept_app.
Qed.

(** X11.  A repeated task registered by [hktask_add] with a positive
    interval, under a name no entry had, is run by a scan (with task
    functions that leave the list alone) exactly when the clock reading of
    the scan has reached the due time the call returned, the clock reading of
    the call plus the interval; the scan then gives it its own reading plus
    the interval as the next due time, and otherwise leaves it as
    registered, at the tail. *)
Theorem registered_task_first_run (code : nat -> fnptr -> Z -> cmd) (now : Z)
  (fuel k : nat) (nm : string) (fn : fnptr) (dt x : Z) (st : hk) :
  (forall (i : nat) (f : fnptr) (d : Z), quiet (code i f d)) ->
  0 < x ->
  has_name nm (tasks st) = false ->
  calm now (tasks st) ->
  NoDup (map name (tasks st)) ->
  (List.length (tasks st) < fuel)%nat ->
  exists tr st',
    hkscan code fuel now k (snd (hktask_add nm fn dt x HeapOk st))
    = Running tr st' /\
    (In (repeated_task nm fn dt x st) (map ran tr) <-> time st + x <= now) /\
    tasks st' =
      swept now (tasks st) ++
      [if time st + x <=? now
       then set_nextdue (now + x) (repeated_task nm fn dt x st)
       else repeated_task nm fn dt x st].
Proof.
  intros Q P F C U L. rewrite hktask_add_ok, F. cbn [snd].
  set (t := repeated_task nm fn dt x st).
  destruct (scan_after_registration code now fuel k st t Q F)
    as (tr & st' & H & I & T); try assumption.
  { apply Forall_app. split; [exact C|]. constructor; [|constructor].
    intros _ _. exact P. }
  exists tr, st'. split; [exact H|]. split.
  - rewrite I. unfold due, t. cbn [repeated_task nextdue]. apply Z.leb_le.
  - rewrite T. cbn [swept]. unfold due at 1. unfold t at 1.
    cbn [repeated_task nextdue type frequency].
    destruct (time st + x <=? now); reflexivity.
Qed.

Lemma registered_task_first_run_witness :
  ((forall (i : nat) (f : fnptr) (d : Z), quiet (idle i f d)) /\
   0 < 5 /\ has_name "ping" (tasks a_due) = false /\
   calm 15 (tasks a_due) /\ NoDup (map name (tasks a_due)) /\
   (List.length (tasks a_due) < 5)%nat) /\
  exists tr st',
    hkscan idle 5 15 0 (snd (hktask_add "ping" 2 0 5 HeapOk a_due))
    = Running tr st' /\
    (In (repeated_task "ping" 2 0 5 a_due) (map ran tr)
     <-> time a_due + 5 <= 15) /\
    tasks st' =
      swept 15 (tasks a_due) ++
      [if time a_due + 5 <=? 15
       then set_nextdue (15 + 5) (repeated_task "ping" 2 0 5 a_due)
       else repeated_task "ping" 2 0 5 a_due].
Proof.
  assert (Q : forall (i : nat) (f : fnptr) (d : Z), quiet (idle i f d))
    by (intros; exact I).
  assert (C : calm 15 (tasks a_due))
    by (repeat constructor; cbn; intros; reflexivity).
  assert (U : NoDup (map name (tasks a_due))).
  { cbn. repeat constructor; cbn; intuition discriminate. }
  assert (L : (List.length (tasks a_due) < 5)%nat) by (cbn; lia).
  split; [repeat split; assumption || reflexivity|].
  exact (registered_task_first_run idle 15 5 0 "ping" 2 0 5 a_due
           Q eq_refl eq_refl C U L).
Defined.

(** X12.  A one-shot task registered by [hktask_oneshot], whatever its
    delay, under a name no entry had, is run by a scan (with task functions
    that leave the list alone) exactly when the clock reading of the scan has
    reached the clock reading of the call plus the delay, and is then gone
    from the list; before that it stays at the tail as registered. *)
Theorem oneshot_task_first_run (code : nat -> fnptr -> Z -> cmd) (now : Z)
  (fuel k : nat) (nm : string) (fn : fnptr) (dt x : Z) (st : hk) :
  (forall (i : nat) (f : fnptr) (d : Z), quiet (code i f d)) ->
  has_name nm (tasks st) = false ->
  calm now (tasks st) ->
  NoDup (map name (tasks st)) ->
  (List.length (tasks st) < fuel)%nat ->
  exists tr st',
    hkscan code fuel now k (snd (hktask_oneshot nm fn dt x HeapOk st))
    = Running tr st' /\
    (In (oneshot_task nm fn dt x st) (map ran tr) <-> time st + x <= now) /\
    tasks st' =
      swept now (tasks st) ++
      (if time st + x <=? now then [] else [oneshot_task nm fn dt x st]).
Proof.
  intros Q F C U L. rewrite hktask_oneshot_ok. cbn [snd].
  set (t := oneshot_task nm fn dt x st).
  destruct (scan_after_registration code now fuel k st t Q F)
    as (tr & st' & H & I & T); try assumption.
  { apply Forall_app. split; [exact C|]. constructor; [|constructor].
    intros _ R. discriminate R. }
  exists tr, st'. split; [exact H|]. split.
  - rewrite I. unfold due, t. cbn [oneshot_task nextdue]. apply Z.leb_le.
  - rewrite T. cbn [swept]. unfold due at 1. unfold t at 1.
    cbn [oneshot_task nextdue type].
    destruct (time st + x <=? now); reflexivity.
Qed.

Lemma oneshot_task_first_run_witness :
  ((forall (i : nat) (f : fnptr) (d : Z), quiet (idle i f d)) /\
   has_name "bootstrap" (tasks a_due) = false /\
   calm 12 (tasks a_due) /\ NoDup (map name (tasks a_due)) /\
   (List.length (tasks a_due) < 5)%nat) /\
  exists tr st',
    hkscan idle 5 12 0 (snd (hktask_oneshot "bootstrap" 2 0 2 HeapOk a_due))
    = Running tr st' /\
    (In (oneshot_task "bootstrap" 2 0 2 a_due) (map ran tr)
     <-> time a_due + 2 <= 12) /\
    tasks st' =
      swept 12 (tasks a_due) ++
      (if time a_due + 2 <=? 12 then []
       else [oneshot_task "bootstrap" 2 0 2 a_due]).
Proof.
  assert (Q : forall (i : nat) (f : fnptr) (d : Z), quiet (idle i f d))
    by (intros; exact I).
  assert (C : calm 12 (tasks a_due))
    by (repeat constructor; cbn; intros; reflexivity).
  assert (U : NoDup (map name (tasks a_due))).
  { cbn. repeat constructor; cbn; intuition discriminate. }
  assert (L : (List.length (tasks a_due) < 5)%nat) by (cbn; lia).
  split; [repeat split; assumption || reflexivity|].
  exact (oneshot_task_first_run idle 12 5 0 "bootstrap" 2 0 2 a_due
           Q eq_refl C U L).
Defined.
